(** * LinguaFlow vocabulary application: a shallow embedding and its properties

    The development follows the TypeScript sources module by module:

    - [Types]         the records of [types.ts] as JavaScript objects;
    - [Flashcard]     the index arithmetic of [components/FlashcardReview.tsx];
    - [Json]          the [JSON] built-in on the flat records of the word list;
    - [App]           the word-list handlers and storage effects of [App.tsx];
    - [WordSearch]    the save button of [components/WordSearch.tsx];
    - [Gemini]        the remote client of [services/geminiService.ts];
    - [LivePractice]  the live session of [components/LivePractice.tsx];
    - [VocabularyList] the image button of [components/VocabularyList.tsx].

    The second part proves the properties, one module of facts for each.

    JavaScript numbers that hold integers (indices, lengths, [Date.now()])
    are integers of [Z]; audio times are rationals of [Q].  JavaScript strings
    are [string]s, read as the UTF-8 bytes of the text. *)

From Stdlib Require Import ZArith QArith Qminmax String Ascii List Lia.
From Stdlib Require DecimalFacts DecimalPos DecimalZ.
From stdpp Require Import base option list gmap strings fin_maps.

Open Scope Z_scope.
Open Scope string_scope.

(* ===================================================================== *)
(** * Part I: the program                                                 *)
(* ===================================================================== *)

(** ** [types.ts] *)
Module Types.

(** The values stored in the fields of a word: strings ([word], [id],
    [imageUrl], ...) and numbers ([addedAt]). *)
Inductive JSValue : Type :=
| VStr (s : string)
| VNum (n : Z).

#[export] Instance JSValue_eq_dec : EqDecision JSValue.
Proof. solve_decision. Defined.

(** A JavaScript object is a finite map from property names to values.
    [WordDefinition] and [SavedWord] are interfaces over such objects: the
    object spread [{...o}] copies every own property of [o], whatever the
    interface it was declared with. *)
Abbreviation JSObject := (gmap string JSValue).

(** [interface WordDefinition]: the seven properties, in declaration order. *)
Definition WordDefinition_keys : list string :=
  ["word"; "phonetic"; "partOfSpeech"; "definitionEn"; "definitionCn";
   "exampleSentence"; "exampleTranslation"].

(** An object literal with exactly the seven [WordDefinition] properties. *)
Definition mkWordDefinition
    (word phonetic partOfSpeech definitionEn definitionCn
     exampleSentence exampleTranslation : string) : JSObject :=
  <["exampleTranslation" := VStr exampleTranslation]>
  (<["exampleSentence" := VStr exampleSentence]>
  (<["definitionCn" := VStr definitionCn]>
  (<["definitionEn" := VStr definitionEn]>
  (<["partOfSpeech" := VStr partOfSpeech]>
  (<["phonetic" := VStr phonetic]>
  (<["word" := VStr word]> ∅)))))).

(** [o] has the shape of a [WordDefinition]: the seven properties, each a
    string. *)
Definition is_WordDefinition (o : JSObject) : Prop :=
  ∀ k, k ∈ WordDefinition_keys → ∃ s, o !! k = Some (VStr s).

(** [{ ...a, ...b }]: the properties of [a], overridden and extended by
    those of [b]. *)
Definition spread2 (a b : JSObject) : JSObject := b ∪ a.

End Types.

(** ** [components/FlashcardReview.tsx] *)
Module Flashcard.

(** The two pieces of component state the navigation writes. *)
Record State := mkState { currentIndex : Z; isFlipped : bool }.

(** [useState(0)], [useState(false)]. *)
Definition initial : State := mkState 0 false.

(** [words.length] *)
Definition words_length {A} (words : list A) : Z := Z.of_nat (length words).

(** JavaScript [%]: the remainder takes the sign of the dividend. *)
Definition js_mod (a b : Z) : Z := Z.rem a b.

(** [handleNext]: [setIsFlipped(false); setCurrentIndex(prev => (prev + 1) % words.length)] *)
Definition handleNext {A} (words : list A) (s : State) : State :=
  mkState (js_mod (currentIndex s + 1) (words_length words)) false.

(** [handlePrev]: [setIsFlipped(false);
    setCurrentIndex(prev => (prev - 1 + words.length) % words.length)] *)
Definition handlePrev {A} (words : list A) (s : State) : State :=
  mkState (js_mod (currentIndex s - 1 + words_length words) (words_length words)) false.

(** The card face is turned by a click on the card. *)
Definition handleFlip (s : State) : State :=
  mkState (currentIndex s) (negb (isFlipped s)).

Inductive Click := Next | Prev | Flip.

Definition click {A} (words : list A) (s : State) (c : Click) : State :=
  match c with
  | Next => handleNext words s
  | Prev => handlePrev words s
  | Flip => handleFlip s
  end.

(** The state after a sequence of clicks, oldest first. *)
Definition clicks {A} (words : list A) (cs : list Click) (s : State) : State :=
  fold_left (click words) cs s.

(** [0 <= currentIndex < words.length] *)
Definition in_bounds {A} (words : list A) (s : State) : Prop :=
  0 <= currentIndex s < words_length words.

(** [const currentWord = words[currentIndex]]; an index outside the array
    reads [undefined]. *)
Definition currentWord {A} (words : list A) (s : State) : option A :=
  if (currentIndex s <? 0)%Z then None else words !! Z.to_nat (currentIndex s).

(** [progressPercentage = ((currentIndex + 1) / words.length) * 100] *)
Definition progressPercentage {A} (words : list A) (s : State) : Q :=
  (inject_Z (currentIndex s + 1) / inject_Z (words_length words) * 100)%Q.

End Flashcard.

(** ** The [JSON] built-in, on flat records

    [JSON.stringify] and [JSON.parse] of ECMA-262, restricted to the texts
    the word list needs: an array of objects whose members are strings and
    integers.  A text is a list of characters.  [parse] returns [None] on a
    text that is not JSON, and also on JSON outside this fragment (nested
    values, fractions, exponents, [true], [null], escapes of characters
    beyond ASCII), which the real [JSON.parse] would accept. *)
Module Json.
Import Types.

Abbreviation Members := (list (string * JSValue)).

Definition code (c : ascii) : N := N_of_ascii c.

Definition quote : ascii := ascii_of_N 34.
Definition backslash : ascii := ascii_of_N 92.

(** *** [JSON.stringify] *)

Definition hex_digit (n : N) : ascii :=
  if (n <? 10)%N then ascii_of_N (48 + n) else ascii_of_N (87 + n).

(** QuoteJSONString, one character: the two-character escapes, [\u00xx]
    for the other control characters, everything else as it is. *)
Definition escape (c : ascii) : list ascii :=
  let n := code c in
  if (n =? 34)%N then [backslash; quote]
  else if (n =? 92)%N then [backslash; backslash]
  else if (n =? 8)%N then [backslash; "b"%char]
  else if (n =? 12)%N then [backslash; "f"%char]
  else if (n =? 10)%N then [backslash; "n"%char]
  else if (n =? 13)%N then [backslash; "r"%char]
  else if (n =? 9)%N then [backslash; "t"%char]
  else if (n <? 32)%N then
    [backslash; "u"%char; "0"%char; "0"%char; hex_digit (n / 16); hex_digit (n mod 16)]
  else [c].

Definition print_string (s : string) : list ascii :=
  quote :: flat_map escape (list_ascii_of_string s) ++ [quote].

Fixpoint print_digits (u : Decimal.uint) : list ascii :=
  match u with
  | Decimal.Nil => []
  | Decimal.D0 u => "0"%char :: print_digits u
  | Decimal.D1 u => "1"%char :: print_digits u
  | Decimal.D2 u => "2"%char :: print_digits u
  | Decimal.D3 u => "3"%char :: print_digits u
  | Decimal.D4 u => "4"%char :: print_digits u
  | Decimal.D5 u => "5"%char :: print_digits u
  | Decimal.D6 u => "6"%char :: print_digits u
  | Decimal.D7 u => "7"%char :: print_digits u
  | Decimal.D8 u => "8"%char :: print_digits u
  | Decimal.D9 u => "9"%char :: print_digits u
  end.

(** Number::toString of an integer (below [10^21], where JavaScript
    switches to the exponent form): the decimal digits, after a minus sign
    for a negative number. *)
Definition print_number (n : Z) : list ascii :=
  match Z.to_int n with
  | Decimal.Pos u => print_digits u
  | Decimal.Neg u => "-"%char :: print_digits u
  end.

Definition print_value (v : JSValue) : list ascii :=
  match v with
  | VStr s => print_string s
  | VNum n => print_number n
  end.

Definition print_member (m : string * JSValue) : list ascii :=
  print_string (fst m) ++ ":"%char :: print_value (snd m).

Fixpoint print_members_tail (ms : Members) : list ascii :=
  match ms with
  | [] => ["}"%char]
  | m :: ms' => ","%char :: print_member m ++ print_members_tail ms'
  end.

Definition print_object (ms : Members) : list ascii :=
  "{"%char ::
  match ms with
  | [] => ["}"%char]
  | m :: ms' => print_member m ++ print_members_tail ms'
  end.

Fixpoint print_elements_tail (os : list Members) : list ascii :=
  match os with
  | [] => ["]"%char]
  | o :: os' => ","%char :: print_object o ++ print_elements_tail os'
  end.

Definition print_array (os : list Members) : list ascii :=
  "["%char ::
  match os with
  | [] => ["]"%char]
  | o :: os' => print_object o ++ print_elements_tail os'
  end.

(** *** [JSON.parse] *)

Definition is_ws (c : ascii) : bool :=
  let n := code c in
  ((n =? 32) || (n =? 9) || (n =? 10) || (n =? 13))%N.

Fixpoint skip_ws (l : list ascii) : list ascii :=
  match l with
  | c :: l' => if is_ws c then skip_ws l' else l
  | [] => []
  end.

Definition hex_value (c : ascii) : option N :=
  let n := code c in
  if ((48 <=? n) && (n <=? 57))%N then Some (n - 48)%N
  else if ((97 <=? n) && (n <=? 102))%N then Some (n - 87)%N
  else if ((65 <=? n) && (n <=? 70))%N then Some (n - 55)%N
  else None.

(** [\uXXXX] for an ASCII character; other code units lie outside the
    fragment. *)
Definition unicode_escape (h1 h2 h3 h4 : ascii) : option ascii :=
  a ← hex_value h1; b ← hex_value h2; c ← hex_value h3; d ← hex_value h4;
  let n := (((a * 16 + b) * 16 + c) * 16 + d)%N in
  if (n <? 128)%N then Some (ascii_of_N n) else None.

(** The character a two-character escape stands for. *)
Definition simple_escape (e : ascii) : option ascii :=
  let n := code e in
  if (n =? 34)%N then Some quote
  else if (n =? 92)%N then Some backslash
  else if (n =? 47)%N then Some "/"%char
  else if (n =? 98)%N then Some (ascii_of_N 8)
  else if (n =? 102)%N then Some (ascii_of_N 12)
  else if (n =? 110)%N then Some (ascii_of_N 10)
  else if (n =? 114)%N then Some (ascii_of_N 13)
  else if (n =? 116)%N then Some (ascii_of_N 9)
  else None.

Definition cons_fst {A B} (a : A) (p : list A * B) : list A * B :=
  (a :: fst p, snd p).

(** The characters of a string literal, after its opening quote, up to the
    closing quote; the second component is the text that follows. *)
Fixpoint parse_string_body (l : list ascii) : option (list ascii * list ascii) :=
  match l with
  | [] => None
  | c :: l1 =>
    if (code c =? 34)%N then Some ([], l1)
    else if (code c =? 92)%N then
      match l1 with
      | [] => None
      | e :: l2 =>
        if (code e =? 117)%N then
          match l2 with
          | h1 :: h2 :: h3 :: h4 :: l3 =>
            match unicode_escape h1 h2 h3 h4 with
            | Some a => cons_fst a <$> parse_string_body l3
            | None => None
            end
          | _ => None
          end
        else
          match simple_escape e with
          | Some a => cons_fst a <$> parse_string_body l2
          | None => None
          end
      end
    else if (code c <? 32)%N then None
    else cons_fst c <$> parse_string_body l1
  end.

Definition parse_string (l : list ascii) : option (string * list ascii) :=
  match l with
  | c :: l1 =>
    if (code c =? 34)%N
    then prod_map string_of_list_ascii id <$> parse_string_body l1
    else None
  | [] => None
  end.

Definition digit_of (c : ascii) : option (Decimal.uint → Decimal.uint) :=
  let n := code c in
  if (n =? 48)%N then Some Decimal.D0
  else if (n =? 49)%N then Some Decimal.D1
  else if (n =? 50)%N then Some Decimal.D2
  else if (n =? 51)%N then Some Decimal.D3
  else if (n =? 52)%N then Some Decimal.D4
  else if (n =? 53)%N then Some Decimal.D5
  else if (n =? 54)%N then Some Decimal.D6
  else if (n =? 55)%N then Some Decimal.D7
  else if (n =? 56)%N then Some Decimal.D8
  else if (n =? 57)%N then Some Decimal.D9
  else None.

(** The longest run of digits at the head of the text. *)
Fixpoint parse_digits (l : list ascii) : Decimal.uint * list ascii :=
  match l with
  | [] => (Decimal.Nil, [])
  | c :: l1 =>
    match digit_of c with
    | Some d => let p := parse_digits l1 in (d (fst p), snd p)
    | None => (Decimal.Nil, l)
    end
  end.

(** The JSON grammar for the integer part: at least one digit, and no
    leading zero before another digit. *)
Definition valid_digits (u : Decimal.uint) : bool :=
  match u with
  | Decimal.Nil => false
  | Decimal.D0 Decimal.Nil => true
  | Decimal.D0 _ => false
  | _ => true
  end.

(** A fraction or an exponent would follow the digits. *)
Definition ends_number (l : list ascii) : bool :=
  match l with
  | c :: _ => negb ((code c =? 46) || (code c =? 101) || (code c =? 69))%N
  | [] => true
  end.

Definition parse_number (l : list ascii) : option (Z * list ascii) :=
  let '(neg, l1) :=
    match l with
    | c :: l1 => if (code c =? 45)%N then (true, l1) else (false, l)
    | [] => (false, l)
    end in
  let p := parse_digits l1 in
  if valid_digits (fst p) && ends_number (snd p)
  then Some (Z.of_int (if neg : bool then Decimal.Neg (fst p) else Decimal.Pos (fst p)), snd p)
  else None.

Definition parse_value (l : list ascii) : option (JSValue * list ascii) :=
  match skip_ws l with
  | c :: l1 =>
    if (code c =? 34)%N
    then prod_map VStr id <$> parse_string (c :: l1)
    else prod_map VNum id <$> parse_number (c :: l1)
  | [] => None
  end.

Definition parse_member (l : list ascii) : option ((string * JSValue) * list ascii) :=
  '(k, r) ← parse_string (skip_ws l);
  match skip_ws r with
  | c :: r1 =>
    if (code c =? 58)%N
    then '(v, r2) ← parse_value r1; Some ((k, v), r2)
    else None
  | [] => None
  end.

(** After a member: a comma and the next member, or the closing brace.
    The fuel bounds the number of members read. *)
Fixpoint parse_members_tail (fuel : nat) (l : list ascii) : option (Members * list ascii) :=
  match fuel with
  | O => None
  | S fuel1 =>
    match skip_ws l with
    | c :: r =>
      if (code c =? 125)%N then Some ([], r)
      else if (code c =? 44)%N then
        '(m, r1) ← parse_member r;
        '(ms, r2) ← parse_members_tail fuel1 r1;
        Some (m :: ms, r2)
      else None
    | [] => None
    end
  end.

Definition parse_object (fuel : nat) (l : list ascii) : option (Members * list ascii) :=
  match skip_ws l with
  | c :: r =>
    if (code c =? 123)%N then
      match skip_ws r with
      | c1 :: r1 =>
        if (code c1 =? 125)%N then Some ([], r1)
        else
          '(m, r2) ← parse_member r;
          '(ms, r3) ← parse_members_tail fuel r2;
          Some (m :: ms, r3)
      | [] => None
      end
    else None
  | [] => None
  end.

Fixpoint parse_elements_tail (fuel : nat) (l : list ascii) : option (list Members * list ascii) :=
  match fuel with
  | O => None
  | S fuel1 =>
    match skip_ws l with
    | c :: r =>
      if (code c =? 93)%N then Some ([], r)
      else if (code c =? 44)%N then
        '(o, r1) ← parse_object fuel1 r;
        '(os, r2) ← parse_elements_tail fuel1 r1;
        Some (o :: os, r2)
      else None
    | [] => None
    end
  end.

Definition parse_array (fuel : nat) (l : list ascii) : option (list Members * list ascii) :=
  match skip_ws l with
  | c :: r =>
    if (code c =? 91)%N then
      match skip_ws r with
      | c1 :: r1 =>
        if (code c1 =? 93)%N then Some ([], r1)
        else
          '(o, r2) ← parse_object fuel r;
          '(os, r3) ← parse_elements_tail fuel r2;
          Some (o :: os, r3)
      | [] => None
      end
    else None
  | [] => None
  end.

(** For the proofs: the text after a value of an object: the comma before the next member
    or the closing brace. *)
Definition after_value (l : list ascii) : Prop :=
  ∃ r, l = ","%char :: r ∨ l = "}"%char :: r.

(** A whole text holds one value and then only white space.  No loop can
    run more often than the text has characters. *)
Definition whole {A} (p : nat → list ascii → option (A * list ascii))
    (text : string) : option A :=
  let l := list_ascii_of_string text in
  '(a, r) ← p (length l) l;
  match skip_ws r with
  | [] => Some a
  | _ :: _ => None
  end.

(** *** Objects as maps *)

(** The members of an object, for [stringify].  ECMA-262 lists them in the
    order the properties were created, which a map does not record; the
    listing of the map stands for it. *)
Definition members_of (o : JSObject) : Members := map_to_list o.

(** [parse] defines the members one after the other: a repeated name keeps
    the last value. *)
Definition object_of (ms : Members) : JSObject :=
  fold_left (λ o m, <[fst m := snd m]> o) ms ∅.

(** [JSON.stringify(words)] for an array of flat objects. *)
Definition stringify (words : list JSObject) : string :=
  string_of_list_ascii (print_array (members_of <$> words)).

(** [JSON.parse(text)] for an array of flat objects. *)
Definition parse (text : string) : option (list JSObject) :=
  (λ os : list Members, object_of <$> os) <$> whole parse_array text.

(** [JSON.stringify(o)] and [JSON.parse(text)] for one flat object. *)
Definition stringify_object (o : JSObject) : string :=
  string_of_list_ascii (print_object (members_of o)).

Definition parse_object_text (text : string) : option JSObject :=
  object_of <$> whole parse_object text.

End Json.

(** ** [App.tsx] *)
Module App.
Import Types.

Definition STORAGE_KEY : string := "linguaflow_vocab_v1".

(** [localStorage]: the browser's key-value store of strings, without its
    quota. *)
Abbreviation Storage := (gmap string string).

(** A string in a condition: every string but the empty one is truthy. *)
Definition truthy (s : string) : bool :=
  match s with
  | EmptyString => false
  | String _ _ => true
  end.

(** The first effect, run on mount: [getItem], and [setSavedWords] of the
    parsed text when there is one; a text that does not parse is logged and
    the list stays as it is. *)
Definition load_effect (localStorage : Storage) (savedWords : list JSObject) : list JSObject :=
  match localStorage !! STORAGE_KEY with
  | Some saved =>
    if truthy saved then
      match Json.parse saved with
      | Some words => words
      | None => savedWords
      end
    else savedWords
  | None => savedWords
  end.

(** The second effect, run whenever [savedWords] changes:
    [localStorage.setItem(STORAGE_KEY, JSON.stringify(savedWords))]. *)
Definition save_effect (savedWords : list JSObject) (localStorage : Storage) : Storage :=
  <[STORAGE_KEY := Json.stringify savedWords]> localStorage.

(** [handleSaveWord]; [uuid] is what [crypto.randomUUID()] returns and [now]
    what [Date.now()] returns.
    [newWord = { ...wordDef, id: uuid, addedAt: now }],
    [setSavedWords(prev => [newWord, ...prev])]. *)
Definition handleSaveWord (uuid : string) (now : Z) (wordDef : JSObject)
    (prev : list JSObject) : list JSObject :=
  let newWord := <["addedAt" := VNum now]> (<["id" := VStr uuid]> wordDef) in
  newWord :: prev.

(** [w.id !== id] *)
Definition id_is (id : string) (w : JSObject) : bool :=
  bool_decide (w !! "id" = Some (VStr id)).

(** [handleRemoveWord]: [prev.filter(w => w.id !== id)] *)
Definition handleRemoveWord (id : string) (prev : list JSObject) : list JSObject :=
  List.filter (λ w, negb (id_is id w)) prev.

(** [handleUpdateWord]:
    [prev.map(w => w.id === id ? { ...w, ...updates } : w)] *)
Definition handleUpdateWord (id : string) (updates : JSObject)
    (prev : list JSObject) : list JSObject :=
  (λ w, if id_is id w then spread2 w updates else w) <$> prev.

(** The component: the list in React state and the store beside it. *)
Record State := mkState { savedWords : list JSObject; localStorage : Storage }.

(** Mounting.  The first render has the empty list; both effects run after
    it, in order: the load reads the store, then the save writes the empty
    list of that render.  The list set by the load causes a second render,
    after which the save effect writes it back. *)
Definition mount (store : Storage) : State :=
  let loaded := load_effect store [] in
  mkState loaded (save_effect loaded (save_effect [] store)).

(** What the views can ask of the component; a save carries the identifier
    and the time the environment gives it. *)
Inductive Action :=
| SaveWord (uuid : string) (now : Z) (wordDef : JSObject)
| RemoveWord (id : string)
| UpdateWord (id : string) (updates : JSObject).

Definition handle (a : Action) : list JSObject → list JSObject :=
  match a with
  | SaveWord uuid now wordDef => handleSaveWord uuid now wordDef
  | RemoveWord id => handleRemoveWord id
  | UpdateWord id updates => handleUpdateWord id updates
  end.

(** A handler sets a new array, and the save effect follows the render. *)
Definition step (s : State) (a : Action) : State :=
  let words := handle a (savedWords s) in
  mkState words (save_effect words (localStorage s)).

Definition run (actions : list Action) (s : State) : State :=
  fold_left step actions s.

(** The store holds the text of the current list under [STORAGE_KEY]. *)
Definition stored (s : State) : Prop :=
  localStorage s !! STORAGE_KEY = Some (Json.stringify (savedWords s)).

(** *** The saved words by name and by identifier *)

(** [w.word], a string in a well-typed word. *)
Definition word_of (w : JSObject) : option string :=
  match w !! "word" with
  | Some (VStr s) => Some s
  | _ => None
  end.

(** [new Set(savedWords.map(w => w.word.toLowerCase()))], with the
    [toLowerCase] built-in of strings as a parameter.  [None] stands for the
    [TypeError] thrown at a word without a string under [word]. *)
Definition savedWordIds (toLowerCase : string → string)
    (savedWords : list JSObject) : option (gset string) :=
  list_to_set <$> mapM (λ w, toLowerCase <$> word_of w) savedWords.

(** [w.id] of every word, in list order. *)
Definition ids (savedWords : list JSObject) : list (option JSValue) :=
  (λ w : JSObject, w !! "id") <$> savedWords.

(** The actions as the views issue them: a save comes with an identifier no
    saved word has, and an update carries no [id] (the list view sends
    [imageUrl] or [videoUrl] alone). *)
Definition proper (savedWords : list JSObject) (a : Action) : Prop :=
  match a with
  | SaveWord uuid _ _ => Some (VStr uuid) ∉ ids savedWords
  | RemoveWord _ => True
  | UpdateWord _ updates => updates !! "id" = None
  end.

Fixpoint proper_run (actions : list Action) (savedWords : list JSObject) : Prop :=
  match actions with
  | [] => True
  | a :: actions' => proper savedWords a ∧ proper_run actions' (handle a savedWords)
  end.

End App.

(** ** [components/WordSearch.tsx], the save button *)
Module WordSearch.
Import Types.

(** [handleSave]: with a search result on screen, the word is handed to
    [onSaveWord], and "if we have a generated image, save it with the
    word": [generatedImage ? { ...result, imageUrl: generatedImage } : result]. *)
Definition handleSave {S : Type} (onSaveWord : JSObject → S → S)
    (result : option JSObject) (generatedImage : option string) : S → S :=
  match result with
  | Some result =>
    let wordToSave :=
      match generatedImage with
      | Some image =>
        if App.truthy image then <["imageUrl" := VStr image]> result else result
      | None => result
      end in
    onSaveWord wordToSave
  | None => λ s, s
  end.

(** [isSaved]: [result ? savedWordIds.has(result.word.toLowerCase()) : false];
    [None] stands for the [TypeError] at a result without a string under
    [word]. *)
Definition isSaved (toLowerCase : string → string)
    (result : option JSObject) (savedWordIds : gset string) : option bool :=
  match result with
  | Some result =>
    (λ w, bool_decide (toLowerCase w ∈ savedWordIds)) <$> App.word_of result
  | None => Some false
  end.

(** [s.split(',')]: the pieces of [s] between its commas. *)
Fixpoint split_comma (s : string) : list string :=
  match s with
  | EmptyString => [EmptyString]
  | String c s' =>
    if Ascii.eqb c ","%char then EmptyString :: split_comma s'
    else
      match split_comma s' with
      | piece :: pieces => String c piece :: pieces
      | [] => [String c EmptyString]
      end
  end.

(** In [reader.onloadend]: [base64String.split(',')[1]], the text handed to
    the image analysis; [None] is [undefined]. *)
Definition base64Data (base64String : string) : option string :=
  split_comma base64String !! 1%nat.

(** A comma occurs in the text. *)
Fixpoint has_comma (s : string) : bool :=
  match s with
  | EmptyString => false
  | String c s' => Ascii.eqb c ","%char || has_comma s'
  end.

End WordSearch.

(** ** Sample data for the examples *)
Module Samples.
Import Types.

Definition apple : JSObject :=
  mkWordDefinition "apple" "/ap.l/" "noun" "a round fruit" "pingguo"
    "She ate an apple." "Ta chi le yi ge pingguo.".

Definition apple_image : string := "data:image/png;base64,iVBORw0KGgo=".

(** The [toLowerCase] built-in on ASCII letters. *)
Definition ascii_lower (c : ascii) : ascii :=
  let n := N_of_ascii c in
  if ((65 <=? n) && (n <=? 90))%N then ascii_of_N (n + 32) else c.

Fixpoint lower (s : string) : string :=
  match s with
  | EmptyString => EmptyString
  | String c s' => String (ascii_lower c) (lower s')
  end.

End Samples.

(** ** [services/geminiService.ts]

    The five functions are [async]: each is a program that awaits requests to
    the remote service.  A program is a tree of awaited requests; the remote
    side is a state machine that answers them.  [console.error] calls are
    left out: they change neither the result nor the requests.  Each function
    starts with [getAI()], which builds a fresh client from the API key of
    the environment, or throws when the constructor of the SDK does; it makes
    no request, and nothing of the client is kept afterwards. *)
Module Gemini.
Import Types.

(** *** The SDK's data, as far as the service reads or writes it *)

Record Blob := mkBlob { mimeType : option string; data : option string }.
Record Part := mkPart { text : option string; inlineData : option Blob }.
Record Content := mkContent { parts : option (list Part) }.
Record Candidate := mkCandidate { content : option Content }.

(** [response.text] is the SDK's getter for the text of the response. *)
Record GenerateContentResponse := mkResponse {
  response_text : option string;
  candidates : option (list Candidate)
}.

Record Video := mkVideo { uri : option string }.
Record GeneratedVideo := mkGeneratedVideo { video : option Video }.
Record GenerateVideosResponse := mkVideosResponse {
  generatedVideos : option (list GeneratedVideo)
}.
Record Operation := mkOperation {
  done : bool;
  response : option GenerateVideosResponse
}.

(** [responseSchema]: an object of strings and numbers, or an array of
    such objects. *)
Inductive PrimType := STRING | NUMBER.
Record ObjectSchema := mkObjectSchema {
  properties : list (string * PrimType);
  required : list string
}.
Inductive Schema :=
| OBJECT (o : ObjectSchema)
| ARRAY (items : ObjectSchema).

Inductive Modality := AUDIO.

Record Config := mkConfig {
  responseMimeType : option string;
  responseSchema : option Schema;
  responseModalities : list Modality;
  voiceName : option string
}.

Definition no_config : Config := mkConfig None None [] None.

Record VideoConfig := mkVideoConfig {
  numberOfVideos : Z;
  resolution : string;
  aspectRatio : string
}.

(** What [fetch] resolves to, and the body [response.blob()] reads. *)
Inductive FetchResponse := HttpResponse (handle : Z).
Inductive BlobData := BlobOf (bytes : string).

(** *** Exceptions and requests *)

Inductive Error :=
| Failure (message : string)      (* [new Error(message)] *)
| SyntaxError                     (* thrown by [JSON.parse] *)
| Rejection (reason : string).    (* the reason a remote request rejects with *)

(** An awaited promise resolves with a value or rejects with a reason. *)
Inductive Result (X : Type) : Type :=
| Resolved (x : X)
| Rejected (e : Error).
Arguments Resolved {X} x.
Arguments Rejected {X} e.

Inductive Request : Type → Type :=
| GenerateContent (model : string) (contents : list Part) (config : Config)
  : Request GenerateContentResponse
| GenerateVideos (model prompt : string) (config : VideoConfig) : Request Operation
| GetVideosOperation (operation : Operation) : Request Operation
| Fetch (url : string) : Request FetchResponse
| ReadBlob (r : FetchResponse) : Request BlobData.

(** *** Programs *)

Inductive Prog (A : Type) : Type :=
| Ret (a : A)                                  (* [return a] *)
| Throw (e : Error)                            (* [throw e] *)
| Await {X : Type} (r : Request X) (k : Result X → Prog A)
| Delay (ms : Z) (k : Prog A)                  (* [await] of a [setTimeout] promise *)
| Spin.                                        (* a loop the fuel did not see the end of *)
Arguments Ret {A} a.
Arguments Throw {A} e.
Arguments Await {A X} r k.
Arguments Delay {A} ms k.
Arguments Spin {A}.

(** [const x = await request; k x]: a rejection is thrown at the [await]. *)
Definition await {A X} (r : Request X) (k : X → Prog A) : Prog A :=
  Await r (λ res, match res with Resolved x => k x | Rejected e => Throw e end).

(** [try { p } catch (e) { handler e }] *)
Fixpoint try_catch {A} (p : Prog A) (handler : Error → Prog A) : Prog A :=
  match p with
  | Ret a => Ret a
  | Throw e => handler e
  | Await r k => Await r (λ res, try_catch (k res) handler)
  | Delay ms k => Delay ms (try_catch k handler)
  | Spin => Spin
  end.

(** *** The environment *)

(** The remote service and the network: a state, an answer to every
    request, and the passing of time. *)
Class Remote := {
  World : Type;
  respond : ∀ {X}, Request X → World → Result X * World;
  elapse : Z → World → World
}.

(** The built-ins the service calls: [JSON.parse] ([None] when it throws a
    [SyntaxError]), the empty array literal, [URL.createObjectURL],
    [process.env.API_KEY], and the constructor [new GoogleGenAI({ apiKey })]
    of the SDK: the error it throws for the key it is given, or [None] when
    it builds the client. *)
Class Builtins := {
  JsonValue : Type;
  JSON_parse : string → option JsonValue;
  empty_array : JsonValue;
  createObjectURL : BlobData → string;
  API_KEY : option string;
  GoogleGenAI : option string → option Error
}.

(** [const ai = getAI(); k]: an error of the constructor is thrown here, and
    the requests of [k] are the ones made through the client [ai]. *)
Definition getAI `{Builtins} {A} (k : Prog A) : Prog A :=
  match GoogleGenAI API_KEY with
  | Some e => Throw e
  | None => k
  end.

Inductive Call :=
| MkCall (X : Type) (r : Request X).
Arguments MkCall {X} r.

Inductive Outcome (A : Type) : Type :=
| Returned (a : A)      (* the promise of the function resolves with [a] *)
| Threw (e : Error)     (* it rejects with [e] *)
| Unfinished.
Arguments Returned {A} a.
Arguments Threw {A} e.
Arguments Unfinished {A}.

(** Running a program against the remote side: the outcome, the requests
    made in order, and the remote state left behind. *)
Fixpoint run `{Remote} {A} (p : Prog A) (w : World) : Outcome A * list Call * World :=
  match p with
  | Ret a => (Returned a, [], w)
  | Throw e => (Threw e, [], w)
  | Await r k =>
    let '(res, w1) := respond r w in
    let '(out, calls, w2) := run (k res) w1 in
    (out, MkCall r :: calls, w2)
  | Delay ms k => run k (elapse ms w)
  | Spin => (Unfinished, [], w)
  end.

Definition outcome `{Remote} {A} (p : Prog A) (w : World) : Outcome A := fst (fst (run p w)).
Definition calls `{Remote} {A} (p : Prog A) (w : World) : list Call := snd (fst (run p w)).

(** What a run does to the outside, in order: the requests with their
    answers, and the waits. *)
Inductive Event :=
| Called (X : Type) (r : Request X) (res : Result X)
| Waited (ms : Z).
Arguments Called {X} r res.

Fixpoint trace `{Remote} {A} (p : Prog A) (w : World) : list Event :=
  match p with
  | Ret _ | Throw _ | Spin => []
  | Await r k =>
    let '(res, w1) := respond r w in
    Called r res :: trace (k res) w1
  | Delay ms k => Waited ms :: trace k (elapse ms w)
  end.

(** The requests among the events. *)
Definition calls_of (t : list Event) : list Call :=
  omap (λ ev, match ev with Called r _ => Some (MkCall r) | Waited _ => None end) t.

Inductive Kind := KGenerateContent | KGenerateVideos | KGetVideosOperation | KFetch | KReadBlob.

Definition kind_of (c : Call) : Kind :=
  match c with
  | MkCall r =>
    match r with
    | GenerateContent _ _ _ => KGenerateContent
    | GenerateVideos _ _ _ => KGenerateVideos
    | GetVideosOperation _ => KGetVideosOperation
    | Fetch _ => KFetch
    | ReadBlob _ => KReadBlob
    end
  end.

(** The calls of the SDK to the remote API and the HTTP request for the
    video; reading the body of that response is not a new request. *)
Definition is_remote_call (c : Call) : bool :=
  match kind_of c with
  | KReadBlob => false
  | _ => true
  end.

Definition remote_calls `{Remote} {A} (p : Prog A) (w : World) : nat :=
  length (List.filter is_remote_call (calls p w)).

(** The program makes the one request [r] and does not wait, whatever the
    state of the remote side, and its outcome is a function of the answer
    alone. *)
Definition one_request `{Remote} {A X} (p : Prog A) (r : Request X)
    (f : Result X → Outcome A) : Prop :=
  ∀ w, trace p w = [Called r (fst (respond r w))] ∧
       calls p w = [MkCall r] ∧ outcome p w = f (fst (respond r w)).

(** The program makes no request and does not wait: it throws [e] at once. *)
Definition no_request `{Remote} {A} (p : Prog A) (e : Error) : Prop :=
  ∀ w, trace p w = [] ∧ run p w = (Threw e, [], w).

(** The requests of the video generation after its operation is done:
    none without a download link, else the fetch and, when it resolves,
    the read of the body. *)
Definition after_poll (tail : list Kind) : Prop :=
  tail = [] ∨ tail = [KFetch] ∨ tail = [KFetch; KReadBlob].

(** *** Text helpers *)

Definition dq : string := String (ascii_of_N 34) EmptyString.
Definition nl : string := String (ascii_of_N 10) EmptyString.

(** A value in a template literal; [undefined] prints as its name. *)
Definition template (s : option string) : string := default "undefined" s.

(** [x || null] on an optional string: the empty string is falsy too. *)
Definition or_null (s : option string) : option string :=
  match s with
  | Some s => if App.truthy s then Some s else None
  | None => None
  end.

Definition text_part (t : string) : Part := mkPart (Some t) None.

(** [response.candidates?.[0]?.content?.parts] *)
Definition first_candidate_parts (response : GenerateContentResponse) : option (list Part) :=
  cs ← candidates response; c ← head cs; ct ← content c; parts ct.

(** *** [lookupWordInGemini] *)

Definition word_schema : Schema :=
  OBJECT (mkObjectSchema
    [("word", STRING); ("phonetic", STRING); ("partOfSpeech", STRING);
     ("definitionEn", STRING); ("definitionCn", STRING);
     ("exampleSentence", STRING); ("exampleTranslation", STRING)]
    ["word"; "phonetic"; "partOfSpeech"; "definitionEn"; "definitionCn";
     "exampleSentence"; "exampleTranslation"]).

Definition lookup_prompt (word : string) : string :=
  "You are an expert English teacher. Explain the English word " ++ dq ++ word ++ dq
  ++ " for a Chinese student. " ++ nl
  ++ "    Provide the phonetic transcription (IPA), part of speech, English definition, Chinese definition, and a good example sentence with its translation.".

Definition lookup_request (word : string) : Request GenerateContentResponse :=
  GenerateContent "gemini-2.5-flash" [text_part (lookup_prompt word)]
    (mkConfig (Some "application/json") (Some word_schema) [] None).

Definition lookupWordInGemini `{Builtins} (word : string) : Prog JsonValue :=
  getAI
    (await (lookup_request word)
      (λ response,
        match response_text response with
        | Some t =>
          if App.truthy t then
            match JSON_parse t with
            | Some v => Ret v
            | None => Throw SyntaxError
            end
          else Throw (Failure "Failed to generate definition")
        | None => Throw (Failure "Failed to generate definition")
        end)).

(** *** [generateTTS] *)

(** [response.candidates?.[0]?.content?.parts?.[0]?.inlineData?.data] *)
Definition first_inline_data (response : GenerateContentResponse) : option string :=
  ps ← first_candidate_parts response; p ← head ps; b ← inlineData p; data b.

Definition tts_request (text : string) : Request GenerateContentResponse :=
  GenerateContent "gemini-2.5-flash-preview-tts" [text_part text]
    (mkConfig None None [AUDIO] (Some "Kore")).

(** The client is built before the [try]: what the constructor throws is
    not caught here. *)
Definition generateTTS `{Builtins} (text : string) : Prog (option string) :=
  getAI
    (try_catch
      (await (tts_request text)
         (λ response, Ret (or_null (first_inline_data response))))
      (λ error, Ret None)).

(** *** [generateWordImage] *)

Definition image_prompt (word definition : string) : string :=
  "Create a creative, pictographic mnemonic illustration for the English word "
  ++ dq ++ word ++ dq ++ ". The image should visually represent the meaning "
  ++ dq ++ definition ++ dq
  ++ " in a concrete way to help memorize the word. Focus on creating a strong visual association between the concept and the image. Style: colorful, clear, educational art. No text in the image.".

(** The [for] loop: the first part with inline data decides. *)
Fixpoint first_image (ps : list Part) : option string :=
  match ps with
  | [] => None
  | p :: ps' =>
    match inlineData p with
    | Some b => Some ("data:image/png;base64," ++ template (data b))
    | None => first_image ps'
    end
  end.

Definition image_request (word definition : string) : Request GenerateContentResponse :=
  GenerateContent "gemini-2.5-flash-image"
    [text_part (image_prompt word definition)] no_config.

Definition generateWordImage `{Builtins} (word definition : string) : Prog (option string) :=
  getAI
    (try_catch
      (await (image_request word definition)
         (λ response, Ret (first_image (default [] (first_candidate_parts response)))))
      (λ e, Throw e)).

(** *** [generateWordVideo] *)

Definition video_prompt (word context : string) : string :=
  "A vivid, cinematic video clip that brings the English word " ++ dq ++ word ++ dq
  ++ " to life. The video should clearly demonstrate the concept: "
  ++ dq ++ context ++ dq ++ " in a memorable way to help a student learn the word.".

(** [while (!operation.done) { await timeout(5000);
                               operation = await getVideosOperation(operation) }],
    for at most [fuel] rounds. *)
Fixpoint poll {A} (fuel : nat) (operation : Operation) (k : Operation → Prog A) : Prog A :=
  if done operation then k operation
  else
    match fuel with
    | O => Spin
    | S fuel' =>
      Delay 5000 (await (GetVideosOperation operation) (λ operation', poll fuel' operation' k))
    end.

(** The remote side ends the loop within [n] polls of [operation]: it
    answers one of them with an operation that is done, or rejects it. *)
Fixpoint done_within `{Remote} (n : nat) (operation : Operation) (w : World) : bool :=
  done operation ||
  match n with
  | O => false
  | S n' =>
    match respond (GetVideosOperation operation) (elapse 5000 w) with
    | (Resolved operation', w1) => done_within n' operation' w1
    | (Rejected _, _) => true
    end
  end.

(** [operation.response?.generatedVideos?.[0]?.video?.uri] *)
Definition download_link (operation : Operation) : option string :=
  r ← response operation; vs ← generatedVideos r; v ← head vs; vd ← video v; uri vd.

Definition video_request (word context : string) : Request Operation :=
  GenerateVideos "veo-3.1-fast-generate-preview" (video_prompt word context)
    (mkVideoConfig 1 "720p" "16:9").

Definition generateWordVideo `{Builtins} (fuel : nat) (word context : string)
    : Prog (option string) :=
  getAI
    (try_catch
      (await (video_request word context)
         (λ operation,
           poll fuel operation (λ operation,
             match or_null (download_link operation) with
             | None => Ret None
             | Some downloadLink =>
               await (Fetch (downloadLink ++ "&key=" ++ template API_KEY)) (λ response,
                 await (ReadBlob response) (λ blob,
                   Ret (Some (createObjectURL blob))))
             end)))
      (λ e, Throw e)).

(** The events of a video generation, as the loop describes them.  After an
    operation has come back: while it is not done, a wait of five seconds
    and a poll with that operation, whose answer is the next operation or
    ends the run when it is a rejection; once it is done, nothing more
    without a download link, and with one the fetch of the link followed by
    [&key=] and the API key and, when the fetch resolves, the read of its
    body. *)
Inductive video_protocol `{Builtins} : Operation → list Event → Prop :=
| protocol_poll operation operation' rest :
    done operation = false →
    video_protocol operation' rest →
    video_protocol operation
      (Waited 5000 :: Called (GetVideosOperation operation) (Resolved operation') :: rest)
| protocol_poll_rejected operation e :
    done operation = false →
    video_protocol operation
      [Waited 5000; Called (GetVideosOperation operation) (Rejected e)]
| protocol_no_link operation :
    done operation = true →
    or_null (download_link operation) = None →
    video_protocol operation []
| protocol_fetch_rejected operation link e :
    done operation = true →
    or_null (download_link operation) = Some link →
    video_protocol operation
      [Called (Fetch (link ++ "&key=" ++ template API_KEY)) (Rejected e)]
| protocol_fetch operation link r res :
    done operation = true →
    or_null (download_link operation) = Some link →
    video_protocol operation
      [Called (Fetch (link ++ "&key=" ++ template API_KEY)) (Resolved r);
       Called (ReadBlob r) res].

(** The events of a whole use: the request that starts the generation, and
    after its answer the protocol above. *)
Inductive video_events `{Builtins} (word context : string) : list Event → Prop :=
| events_start_rejected e :
    video_events word context [Called (video_request word context) (Rejected e)]
| events_started operation rest :
    video_protocol operation rest →
    video_events word context
      (Called (video_request word context) (Resolved operation) :: rest).

(** *** [analyzeImageForVocabulary] *)

Definition labels_schema : Schema :=
  ARRAY (mkObjectSchema
    [("label", STRING); ("phonetic", STRING); ("x", NUMBER); ("y", NUMBER)]
    ["label"; "phonetic"; "x"; "y"]).

Definition analyze_prompt : string :=
  "Identify the 5 most distinct and prominent physical objects in this image. " ++ nl
  ++ "          For each object, provide the English label (single word or short phrase) and its phonetic transcription. " ++ nl
  ++ "          Also estimate the center position of the object in the image as X and Y percentages (0 to 100, where x=0 is left, y=0 is top)." ++ nl
  ++ "          Return a JSON array.".

Definition analyze_request (base64Image : string) : Request GenerateContentResponse :=
  GenerateContent "gemini-2.5-flash"
    [mkPart None (Some (mkBlob (Some "image/jpeg") (Some base64Image)));
     text_part analyze_prompt]
    (mkConfig (Some "application/json") (Some labels_schema) [] None).

Definition analyzeImageForVocabulary `{Builtins} (base64Image : string) : Prog JsonValue :=
  getAI
    (await (analyze_request base64Image)
      (λ response,
        match response_text response with
        | Some t =>
          if App.truthy t then
            match JSON_parse t with
            | Some v => Ret v
            | None => Throw SyntaxError
            end
          else Ret empty_array
        | None => Ret empty_array
        end)).

(** *** An environment to run the examples in *)

(** The values of the flat [Json] fragment as the built-in's values. *)
Inductive FlatValue :=
| FObject (o : JSObject)
| FArray (os : list JSObject).

#[export] Instance flat_builtins : Builtins := {|
  JsonValue := FlatValue;
  JSON_parse t :=
    match Json.parse_object_text t with
    | Some o => Some (FObject o)
    | None => FArray <$> Json.parse t
    end;
  empty_array := FArray [];
  createObjectURL b := match b with BlobOf bytes => "blob:" ++ bytes end;
  API_KEY := Some "key";
  GoogleGenAI apiKey :=
    match apiKey with
    | Some _ => None
    | None => Some (Failure "An API Key must be set when running in a browser")
    end
|}.

(** The same built-ins in an environment without an API key: the browser
    build of the SDK refuses to construct a client there. *)
Definition keyless_builtins : Builtins := {|
  JsonValue := FlatValue;
  JSON_parse := @JSON_parse flat_builtins;
  empty_array := FArray [];
  createObjectURL := @createObjectURL flat_builtins;
  API_KEY := None;
  GoogleGenAI := @GoogleGenAI flat_builtins
|}.

(** A remote side that follows a script: every content request gets the
    same response, and a video is done at the poll that finds the counter
    at zero. *)
Record Script := mkScript {
  content_reply : Result GenerateContentResponse;
  polls_left : nat
}.

Definition finished_operation : Operation :=
  mkOperation true
    (Some (mkVideosResponse (Some [mkGeneratedVideo (Some (mkVideo (Some "https://video.example/v1?alt=media")))]))).

Definition script_respond {X} (r : Request X) (w : Script) : Result X * Script :=
  match r in Request X return Result X * Script with
  | GenerateContent _ _ _ => (content_reply w, w)
  | GenerateVideos _ _ _ =>
    (Resolved (match polls_left w with O => finished_operation | S _ => mkOperation false None end), w)
  | GetVideosOperation _ =>
    match polls_left w with
    | O | S O => (Resolved finished_operation, mkScript (content_reply w) 0)
    | S n => (Resolved (mkOperation false None), mkScript (content_reply w) n)
    end
  | Fetch _ => (Resolved (HttpResponse 200), w)
  | ReadBlob _ => (Resolved (BlobOf "mp4"), w)
  end.

Definition scripted : Remote := {|
  World := Script;
  respond := @script_respond;
  elapse ms w := w
|}.

(** A response whose text was cut off before the closing brace. *)
Definition truncated_text : string :=
  "{" ++ dq ++ "word" ++ dq ++ ":" ++ dq ++ "apple" ++ dq.

Definition truncated_script : Script :=
  mkScript (Resolved (mkResponse (Some truncated_text) None)) 0.

(** A response with a generated image after a part of text. *)
Definition image_script : Script :=
  mkScript
    (Resolved (mkResponse None
      (Some [mkCandidate (Some (mkContent (Some
        [text_part "Here is the picture.";
         mkPart None (Some (mkBlob (Some "image/png") (Some "iVBORw0KGgo=")))])))])))
    0.

End Gemini.

(** ** [components/LivePractice.tsx]

    The component keeps its session in refs and reacts to events: the
    callbacks of the live connection, the audio-process events of the
    microphone pipeline and the [ended] events of the playing sources.  Each
    handler is a function on the state of the component together with the
    part of the browser it acts on: the source nodes it created, the calls to
    [source.start], and the frames handed to the session.  Times and samples
    are rationals.

    [onmessage] is an [async] function with one [await], on the decoding of
    the chunk; the decoding does no work of its own on the event loop, so the
    handler of one message is through before the next event is delivered, and
    each handler is one step here. *)
Module LivePractice.
Import Types.
#[local] Open Scope Q_scope.

(** *** The Web Audio objects *)

(** An [AudioBuffer]: its [duration] is its length in sample frames over
    its sample rate. *)
Record AudioBuffer := mkAudioBuffer { frames : N; bufferRate : positive }.

Definition duration (b : AudioBuffer) : Q := Z.of_N (frames b) # bufferRate b.

Record AudioContext := mkAudioContext { sampleRate : positive }.

(** An [AudioBufferSourceNode] that was started. *)
Record SourceNode := mkSourceNode {
  buffer : AudioBuffer;
  startedAt : Q;       (* the [when] of [source.start(when)] *)
  stopped : bool       (* [source.stop()] was called *)
}.

Record ScriptProcessor := mkScriptProcessor {
  bufferSize : nat;
  inputChannels : nat;
  outputChannels : nat;
  connected : bool
}.

(** What the component imports from [../utils/audioUtils], whose source is
    not part of the development, and the [Math.sqrt] built-in. *)
Class Externals := {
  createBlob : list Q → Gemini.Blob;
  decode : string → list N;
  decodeAudioData : list N → AudioContext → positive → positive → AudioBuffer;
  Math_sqrt : Q → Q
}.

(** *** The messages of the server *)

Record ServerContent := mkServerContent {
  modelTurn : option Gemini.Content;
  interrupted : option bool
}.

Record LiveServerMessage := mkMessage { serverContent : option ServerContent }.

(** [message.serverContent?.modelTurn?.parts?.[0]?.inlineData?.data] *)
Definition base64Audio (message : LiveServerMessage) : option string :=
  sc ← serverContent message; mt ← modelTurn sc; ps ← Gemini.parts mt;
  p ← head ps; b ← Gemini.inlineData p; Gemini.data b.

(** [message.serverContent?.interrupted], as a condition. *)
Definition is_interrupted (message : LiveServerMessage) : bool :=
  default false (sc ← serverContent message; interrupted sc).

(** *** State *)

(** One call of [source.start]: the context time read when the chunk came
    in, the start time given to the source, and the length of the chunk. *)
Record Scheduled := mkScheduled { arrival : Q; when : Q; length_of : Q }.

Record State := mkState {
  (* React state *)
  isConnected : bool;
  isConnecting : bool;
  error : option string;
  volume : Q;
  (* refs *)
  inputAudioContextRef : option AudioContext;
  outputAudioContextRef : option AudioContext;
  outputNodeRef : option AudioContext;      (* the gain node, by its context *)
  nextStartTimeRef : Q;
  sourcesRef : gset nat;
  streamRef : option bool;                  (* the microphone stream; [true] while its tracks run *)
  processorRef : option ScriptProcessor;
  (* the browser *)
  nodes : gmap nat SourceNode;              (* the source nodes created so far *)
  playlist : list Scheduled;                (* the calls of [source.start], oldest first *)
  sent : list Gemini.Blob                   (* the frames given to [sendRealtimeInput], oldest first *)
}.

(** A freshly mounted component. *)
Definition initial : State :=
  mkState false false None 0 None None None 0 ∅ None None ∅ [] [].

(** [sourcesRef.current.forEach(source => { try { source.stop() } catch {} })] *)
Definition stop_all (sources : gset nat) (ns : gmap nat SourceNode) : gmap nat SourceNode :=
  map_imap (λ id n,
    Some (if bool_decide (id ∈ sources)
          then mkSourceNode (buffer n) (startedAt n) true
          else n)) ns.

(** The first identifier no node has yet: [ctx.createBufferSource()] makes
    a new object. *)
Definition fresh_node (ns : gmap nat SourceNode) : nat :=
  fresh (dom ns).

Section Handlers.
Context `{Externals}.

(** The audio branch of [onmessage]; [currentTime] is [ctx.currentTime]
    when the message is handled. *)
Definition handle_audio (message : LiveServerMessage) (currentTime : Q) (s : State) : State :=
  match Gemini.or_null (base64Audio message), outputAudioContextRef s, outputNodeRef s with
  | Some audio, Some ctx, Some _ =>
    let start := Qmax (nextStartTimeRef s) currentTime in
    let audioBuffer := decodeAudioData (decode audio) ctx 24000 1 in
    let source := fresh_node (nodes s) in
    mkState (isConnected s) (isConnecting s) (error s) (volume s)
      (inputAudioContextRef s) (outputAudioContextRef s) (outputNodeRef s)
      (start + duration audioBuffer)
      ({[source]} ∪ sourcesRef s)
      (streamRef s) (processorRef s)
      (<[source := mkSourceNode audioBuffer start false]> (nodes s))
      (playlist s ++ [mkScheduled currentTime start (duration audioBuffer)])
      (sent s)
  | _, _, _ => s
  end.

(** The interruption branch of [onmessage]. *)
Definition handle_interruption (message : LiveServerMessage) (s : State) : State :=
  if is_interrupted message then
    mkState (isConnected s) (isConnecting s) (error s) (volume s)
      (inputAudioContextRef s) (outputAudioContextRef s) (outputNodeRef s)
      0
      ∅
      (streamRef s) (processorRef s)
      (stop_all (sourcesRef s) (nodes s))
      (playlist s)
      (sent s)
  else s.

(** [onmessage]: the audio, then the interruption. *)
Definition onmessage (message : LiveServerMessage) (currentTime : Q) (s : State) : State :=
  handle_interruption message (handle_audio message currentTime s).

(** The [ended] listener of a source: [sourcesRef.current.delete(source)]. *)
Definition onended (source : nat) (s : State) : State :=
  mkState (isConnected s) (isConnecting s) (error s) (volume s)
    (inputAudioContextRef s) (outputAudioContextRef s) (outputNodeRef s)
    (nextStartTimeRef s)
    (sourcesRef s ∖ {[source]})
    (streamRef s) (processorRef s) (nodes s) (playlist s) (sent s).

(** [cleanup] *)
Definition cleanup (s : State) : State :=
  mkState false (isConnecting s) (error s) 0
    (inputAudioContextRef s) (outputAudioContextRef s) (outputNodeRef s)
    0
    ∅
    None
    (match processorRef s, inputAudioContextRef s with
     | Some p, Some _ =>
       Some (mkScriptProcessor (bufferSize p) (inputChannels p) (outputChannels p) false)
     | p, _ => p
     end)
    (if bool_decide (sourcesRef s = ∅) then nodes s else stop_all (sourcesRef s) (nodes s))
    (playlist s)
    (sent s).

(** [connect], up to the opening of the session: the two contexts and
    their gain nodes, then the microphone; [microphone] tells whether
    [getUserMedia] resolved. *)
Definition connect (microphone : bool) (s : State) : State :=
  let inputCtx := mkAudioContext 16000 in
  let outputCtx := mkAudioContext 24000 in
  if microphone then
    mkState (isConnected s) true None (volume s)
      (Some inputCtx) (Some outputCtx) (Some outputCtx)
      (nextStartTimeRef s) (sourcesRef s)
      (Some true) (processorRef s) (nodes s) (playlist s) (sent s)
  else
    mkState (isConnected s) false (Some "无法访问麦克风或连接 AI 服务。") (volume s)
      (Some inputCtx) (Some outputCtx) (Some outputCtx)
      (nextStartTimeRef s) (sourcesRef s)
      (streamRef s) (processorRef s) (nodes s) (playlist s) (sent s).

(** [onopen]: the capture pipeline, with a script processor of 4096
    sample frames, one input and one output channel. *)
Definition onopen (s : State) : State :=
  mkState true false (error s) (volume s)
    (inputAudioContextRef s) (outputAudioContextRef s) (outputNodeRef s)
    (nextStartTimeRef s) (sourcesRef s) (streamRef s)
    (Some (mkScriptProcessor 4096 1 1 true))
    (nodes s) (playlist s) (sent s).

(** The volume meter: [Math.min(Math.sqrt(sum / length) * 5, 1)]. *)
Definition meter (inputData : list Q) : Q :=
  let sum := fold_left (λ sum x, sum + x * x) inputData 0 in
  Qmin (Math_sqrt (sum / inject_Z (Z.of_nat (length inputData))) * 5) 1.

(** [onaudioprocess]: the channel data of the event's input buffer is
    metered, made into a blob and given to the session. *)
Definition onaudioprocess (inputData : list Q) (s : State) : State :=
  mkState (isConnected s) (isConnecting s) (error s) (meter inputData)
    (inputAudioContextRef s) (outputAudioContextRef s) (outputNodeRef s)
    (nextStartTimeRef s) (sourcesRef s) (streamRef s) (processorRef s)
    (nodes s) (playlist s)
    (sent s ++ [createBlob inputData]).

(** [onclose] and [onerror]. *)
Definition onclose (s : State) : State := cleanup s.

Definition onerror (s : State) : State :=
  let s' := cleanup s in
  mkState (isConnected s') (isConnecting s') (Some "连接发生错误，请稍后重试。") (volume s')
    (inputAudioContextRef s') (outputAudioContextRef s') (outputNodeRef s')
    (nextStartTimeRef s') (sourcesRef s') (streamRef s') (processorRef s')
    (nodes s') (playlist s') (sent s').

(** What happens to a mounted component. *)
Inductive Event :=
| Connect (microphone : bool)
| Open
| Message (message : LiveServerMessage) (currentTime : Q)
| AudioProcess (inputData : list Q)
| Ended (source : nat)
| Close
| Error
| Toggle.

Definition handle (s : State) (e : Event) : State :=
  match e with
  | Connect microphone => connect microphone s
  | Open => onopen s
  | Message message currentTime => onmessage message currentTime s
  | AudioProcess inputData => onaudioprocess inputData s
  | Ended source => onended source s
  | Close => onclose s
  | Error => onerror s
  | Toggle => if isConnected s then cleanup s else connect true s
  end.

Definition run (events : list Event) (s : State) : State :=
  fold_left handle events s.

(** The guard of the audio branch holds: the output context and its gain
    node are set. *)
Definition ready (s : State) : Prop :=
  is_Some (outputAudioContextRef s) ∧ is_Some (outputNodeRef s).

(** A message that carries a chunk of audio and no interruption. *)
Definition is_chunk (message : LiveServerMessage) : Prop :=
  is_Some (Gemini.or_null (base64Audio message)) ∧ is_interrupted message = false.

(** The buffer a chunk decodes to. *)
Definition chunk_buffer (ctx : AudioContext) (message : LiveServerMessage) : AudioBuffer :=
  decodeAudioData (decode (default EmptyString (base64Audio message))) ctx 24000 1.

(** The platform hands the processor buffers of the size it was created
    with. *)
Definition platform_buffer (s : State) (inputData : list Q) : Prop :=
  ∃ p, processorRef s = Some p ∧ length inputData = bufferSize p.

(** The events of an open session in which nothing interrupts the
    playback: messages without the interrupted signal, sources that end,
    and audio-process events. *)
Definition quiet (e : Event) : Prop :=
  match e with
  | Message message _ => is_interrupted message = false
  | AudioProcess _ | Ended _ => True
  | _ => False
  end.

(** The chunks among the events: the context time each came in at and
    the duration it decodes to. *)
Fixpoint chunk_events (ctx : AudioContext) (events : list Event) : list (Q * Q) :=
  match events with
  | [] => []
  | Message message currentTime :: events' =>
    match Gemini.or_null (base64Audio message) with
    | Some audio =>
      (currentTime, duration (decodeAudioData (decode audio) ctx 24000 1))
      :: chunk_events ctx events'
    | None => chunk_events ctx events'
    end
  | _ :: events' => chunk_events ctx events'
  end.

(** The input buffers among the events. *)
Fixpoint buffers_of (events : list Event) : list (list Q) :=
  match events with
  | [] => []
  | AudioProcess inputData :: events' => inputData :: buffers_of events'
  | _ :: events' => buffers_of events'
  end.

(** Every audio-process event among [events] carries a buffer of the
    size of the processor of [s]. *)
Definition platform_events (s : State) (events : list Event) : Prop :=
  Forall (platform_buffer s) (buffers_of events).

End Handlers.

(** Scheduled back to back from a cursor: each start is the later of the
    cursor and the arrival, and the cursor moves to the end of the chunk. *)
Fixpoint gapless (cursor : Q) (l : list Scheduled) : Prop :=
  match l with
  | [] => True
  | e :: l' => when e = Qmax cursor (arrival e) ∧ gapless (when e + length_of e) l'
  end.

Definition cursor_after (cursor : Q) (l : list Scheduled) : Q :=
  fold_left (λ _ e, when e + length_of e) l cursor.

(** *** An environment for the examples *)

(** One byte per character, one 16-bit sample per two bytes. *)
#[export] Instance sample_externals : Externals := {|
  createBlob inputData :=
    Gemini.mkBlob (Some "audio/pcm;rate=16000")
      (Some (string_of_list_ascii
               ((λ x, ascii_of_N (Z.to_N (Qnum x) mod 256)) <$> inputData)));
  decode audio := (λ c, N_of_ascii c) <$> list_ascii_of_string audio;
  decodeAudioData bytes ctx rate channels :=
    mkAudioBuffer (N.of_nat (length bytes) / 2) rate;
  Math_sqrt x := x
|}.

Definition audio_message (audio : string) (interrupt : bool) : LiveServerMessage :=
  mkMessage (Some (mkServerContent
    (Some (Gemini.mkContent (Some [Gemini.mkPart None (Some (Gemini.mkBlob (Some "audio/pcm") (Some audio)))])))
    (if interrupt then Some true else None))).

(** Every source in the pending-playback set is a node that exists and has
    not been stopped. *)
Definition pending_live (s : State) : Prop :=
  ∀ id, id ∈ sourcesRef s → ∃ n, nodes s !! id = Some n ∧ stopped n = false.

(** No call of [source.start] was given a time before the context time it
    was made at, and the cursor is not negative. *)
Definition on_time (s : State) : Prop :=
  Forall (λ e, (arrival e <= when e)%Q) (playlist s) ∧ (0 <= nextStartTimeRef s)%Q.

End LivePractice.

(** ** [components/VocabularyList.tsx], the image button of a word *)
Module VocabularyList.
Import Types Gemini.

(** The fields of its word that a [WordItem] reads in its handlers. *)
Record WordProps := mkWordProps {
  id : string;
  word : string;
  definitionEn : string;
  exampleSentence : string
}.

Definition string_field (w : JSObject) (k : string) : option string :=
  match w !! k with
  | Some (VStr s) => Some s
  | _ => None
  end.

(** The props of a well-typed saved word. *)
Definition props_of (w : JSObject) : option WordProps :=
  i ← string_field w "id"; wd ← string_field w "word";
  d ← string_field w "definitionEn"; e ← string_field w "exampleSentence";
  Some (mkWordProps i wd d e).

(** What a handler has done when it is through: the call of [onUpdate] it
    made, the alert it showed, and the loading flag it leaves. *)
Record Done := mkDone {
  update : option App.Action;
  alert : option string;
  imgLoading : bool
}.

(** [const x = await p; k x] for a program [p] of the service. *)
Fixpoint bind {A B} (p : Prog A) (k : A → Prog B) : Prog B :=
  match p with
  | Ret a => k a
  | Throw e => Throw e
  | Await r k' => Await r (λ res, bind (k' res) k)
  | Delay ms p' => Delay ms (bind p' k)
  | Spin => Spin
  end.

(** [handleGenerateImage]: the loading flag is set, and cleared in
    [finally]; an image that came back is passed to [onUpdate] under the
    [id] of the word; a failure is logged and shown in an alert. *)
Definition handleGenerateImage `{Builtins} (p : WordProps) : Prog Done :=
  try_catch
    (bind (generateWordImage (word p) (definitionEn p)) (λ url,
       match or_null url with
       | Some url =>
         Ret (mkDone (Some (App.UpdateWord (id p) {["imageUrl" := VStr url]})) None false)
       | None => Ret (mkDone None None false)
       end))
    (λ e, Ret (mkDone None (Some "生成图片失败，请重试。") false)).

(** The list of the application after the handler: [onUpdate] is
    [handleUpdateWord]. *)
Definition after (d : Done) (savedWords : list JSObject) : list JSObject :=
  match update d with
  | Some a => App.handle a savedWords
  | None => savedWords
  end.

End VocabularyList.

(* ===================================================================== *)
(** * Part II: properties                                                 *)
(* ===================================================================== *)

Module FlashcardFacts.
Import Flashcard.

Section Navigation.
Context {A : Type} (words : list A).
Hypothesis nonempty : words ≠ [].

Lemma words_length_pos : 0 < words_length words.
Proof using nonempty.
  unfold words_length. destruct words; [done | simpl; lia].
Qed.

Lemma handleNext_in_bounds s : in_bounds words s → in_bounds words (handleNext words s).
Proof using nonempty.
  pose proof words_length_pos as Hn.
  unfold in_bounds, handleNext, js_mod; simpl. intros Hs.
  rewrite Z.rem_mod_nonneg by lia.
  apply Z.mod_pos_bound; lia.
Qed.

Lemma handlePrev_in_bounds s : in_bounds words s → in_bounds words (handlePrev words s).
Proof using nonempty.
  pose proof words_length_pos as Hn.
  unfold in_bounds, handlePrev, js_mod; simpl. intros Hs.
  rewrite Z.rem_mod_nonneg by lia.
  apply Z.mod_pos_bound; lia.
Qed.

Lemma click_in_bounds s c : in_bounds words s → in_bounds words (click words s c).
Proof using nonempty.
  destruct c; simpl; auto using handleNext_in_bounds, handlePrev_in_bounds.
Qed.

Lemma clicks_in_bounds cs : ∀ s, in_bounds words s → in_bounds words (clicks words cs s).
Proof using nonempty.
  unfold clicks. induction cs as [|c cs IH]; simpl; intros s Hs; [done|].
  apply IH, click_in_bounds, Hs.
Qed.

Lemma handlePrev_handleNext s :
  in_bounds words s →
  currentIndex (handlePrev words (handleNext words s)) = currentIndex s.
Proof using nonempty.
  pose proof words_length_pos as Hn.
  unfold in_bounds, handlePrev, handleNext, js_mod; simpl. intros Hs.
  set (n := words_length words) in *.
  rewrite (Z.rem_mod_nonneg (currentIndex s + 1) n) by lia.
  destruct (Z.eq_dec (currentIndex s + 1) n) as [E|E].
  - rewrite E, Z.mod_same by lia.
    rewrite Z.rem_mod_nonneg by lia.
    rewrite Z.mod_small; lia.
  - rewrite (Z.mod_small (currentIndex s + 1) n) by lia.
    rewrite Z.rem_mod_nonneg by lia.
    replace (currentIndex s + 1 - 1 + n) with (currentIndex s + 1 * n) by lia.
    rewrite Z.mod_add by lia. apply Z.mod_small; lia.
Qed.
End Navigation.

(** C9. For a non-empty word list the flashcard index starts in
    [[0, length)] and stays there after any sequence of next/prev (and
    flip) clicks, from the initial state and from any in-bounds state; both
    steps are the modular successor and predecessor; and next followed by
    prev gives back the index it started from. *)
Theorem flashcard_navigation {A : Type} (words : list A) :
  words ≠ [] →
  (∀ cs, in_bounds words (clicks words cs initial)) ∧
  (∀ cs s, in_bounds words s → in_bounds words (clicks words cs s)) ∧
  (∀ s, in_bounds words s →
     currentIndex (handleNext words s) = (currentIndex s + 1) mod words_length words ∧
     currentIndex (handlePrev words s) = (currentIndex s - 1) mod words_length words) ∧
  (∀ s, in_bounds words s →
     currentIndex (handlePrev words (handleNext words s)) = currentIndex s).
Proof.
  intros Hne. pose proof (words_length_pos words Hne) as Hn.
  split; [|split; [|split]].
  - intros cs. apply clicks_in_bounds; [done|].
    unfold in_bounds; simpl; lia.
  - intros cs s. by apply clicks_in_bounds.
  - intros s Hs. unfold in_bounds, handleNext, handlePrev, js_mod in *; simpl.
    rewrite !Z.rem_mod_nonneg by lia. split; [done|].
    replace (currentIndex s - 1 + words_length words)
      with (currentIndex s - 1 + 1 * words_length words) by lia.
    by rewrite Z.mod_add by lia.
  - intros s. by apply handlePrev_handleNext.
Qed.

Lemma flashcard_navigation_witness :
  ["a"; "b"; "c"] ≠ [] ∧
  in_bounds ["a"; "b"; "c"] (clicks ["a"; "b"; "c"] [Prev; Prev; Next; Flip; Next; Next] initial) ∧
  currentIndex (handlePrev ["a"; "b"; "c"] (handleNext ["a"; "b"; "c"] (mkState 2 true))) = 2.
Proof.
  assert (Hne : ["a"; "b"; "c"] ≠ []) by discriminate.
  split; [exact Hne|].
  destruct (flashcard_navigation ["a"; "b"; "c"] Hne) as (H1 & _ & _ & H4).
  split; [apply H1 | apply H4; unfold in_bounds, words_length; simpl; lia].
Defined.

(** *** The card on screen *)

(** X8.  For a non-empty word list, after any sequence of clicks from the
    initial state the index reads a word of the list: the card on screen
    always exists. *)
Theorem currentWord_exists {A : Type} (words : list A) (cs : list Click) :
  words ≠ [] → is_Some (currentWord words (clicks words cs initial)).
Proof.
  intros Hne. pose proof (words_length_pos words Hne) as Hn.
  assert (Hb : in_bounds words (clicks words cs initial)).
  { apply clicks_in_bounds; [done|]. unfold in_bounds. cbn. lia. }
  unfold in_bounds, words_length, currentWord in *.
  destruct (Z.ltb_spec (currentIndex (clicks words cs initial)) 0) as [?|?]; [lia|].
  apply lookup_lt_is_Some. lia.
Qed.

Lemma currentWord_exists_witness :
  ["a"; "b"; "c"] ≠ [] ∧
  is_Some (currentWord ["a"; "b"; "c"] (clicks ["a"; "b"; "c"] [Prev; Flip; Prev] initial)).
Proof.
  assert (Hne : ["a"; "b"; "c"] ≠ []) by discriminate.
  split; [exact Hne|].
  exact (currentWord_exists ["a"; "b"; "c"] [Prev; Flip; Prev] Hne).
Defined.

(** *** Going round *)

Section Cycle.
Context {A : Type} (words : list A).
Hypothesis nonempty : words ≠ [].

Lemma handleNext_index (s : State) :
  in_bounds words s →
  currentIndex (handleNext words s) = (currentIndex s + 1) mod words_length words.
Proof using nonempty.
  pose proof (words_length_pos words nonempty) as Hn.
  unfold in_bounds, handleNext, js_mod. cbn. intros Hs.
  by rewrite Z.rem_mod_nonneg by lia.
Qed.

Lemma handlePrev_index (s : State) :
  in_bounds words s →
  currentIndex (handlePrev words s) = (currentIndex s - 1) mod words_length words.
Proof using nonempty.
  pose proof (words_length_pos words nonempty) as Hn.
  unfold in_bounds, handlePrev, js_mod. cbn. intros Hs.
  rewrite Z.rem_mod_nonneg by lia.
  replace (currentIndex s - 1 + words_length words)
    with (currentIndex s - 1 + 1 * words_length words) by lia.
  by rewrite Z.mod_add by lia.
Qed.

Lemma iter_next_in_bounds (k : nat) (s : State) :
  in_bounds words s → in_bounds words (Nat.iter k (handleNext words) s).
Proof using nonempty.
  intros Hs. induction k as [|k IH]; [done|]. cbn. by apply handleNext_in_bounds.
Qed.

Lemma iter_prev_in_bounds (k : nat) (s : State) :
  in_bounds words s → in_bounds words (Nat.iter k (handlePrev words) s).
Proof using nonempty.
  intros Hs. induction k as [|k IH]; [done|]. cbn. by apply handlePrev_in_bounds.
Qed.

Lemma iter_next_index (k : nat) (s : State) :
  in_bounds words s →
  currentIndex (Nat.iter k (handleNext words) s)
  = (currentIndex s + Z.of_nat k) mod words_length words.
Proof using nonempty.
  pose proof (words_length_pos words nonempty) as Hn. intros Hs.
  induction k as [|k IH].
  - cbn. rewrite Z.add_0_r, Z.mod_small; [done | apply Hs].
  - rewrite Nat.iter_succ, handleNext_index by (by apply iter_next_in_bounds).
    rewrite IH, Zplus_mod_idemp_l. f_equal. lia.
Qed.

Lemma iter_prev_index (k : nat) (s : State) :
  in_bounds words s →
  currentIndex (Nat.iter k (handlePrev words) s)
  = (currentIndex s - Z.of_nat k) mod words_length words.
Proof using nonempty.
  pose proof (words_length_pos words nonempty) as Hn. intros Hs.
  induction k as [|k IH].
  - cbn. rewrite Z.sub_0_r, Z.mod_small; [done | apply Hs].
  - rewrite Nat.iter_succ, handlePrev_index by (by apply iter_prev_in_bounds).
    rewrite IH, Zminus_mod_idemp_l. f_equal. lia.
Qed.

End Cycle.

(** X9.  On a non-empty list of [n] words, [k] clicks on next from an
    in-bounds index [i] lead to [(i + k) mod n] and [k] clicks on prev to
    [(i - k) mod n]: [n] clicks either way come back to the card they
    started from, prev followed by next too, and next clicked [j] times from
    the first card reaches card [j], for every [j < n]. *)
Theorem navigation_cycles {A : Type} (words : list A) (s : State) :
  words ≠ [] → in_bounds words s →
  (∀ k, currentIndex (Nat.iter k (handleNext words) s)
        = (currentIndex s + Z.of_nat k) mod words_length words) ∧
  (∀ k, currentIndex (Nat.iter k (handlePrev words) s)
        = (currentIndex s - Z.of_nat k) mod words_length words) ∧
  currentIndex (Nat.iter (length words) (handleNext words) s) = currentIndex s ∧
  currentIndex (Nat.iter (length words) (handlePrev words) s) = currentIndex s ∧
  currentIndex (handleNext words (handlePrev words s)) = currentIndex s ∧
  (∀ j, (j < length words)%nat →
        currentIndex (Nat.iter j (handleNext words) initial) = Z.of_nat j).
Proof.
  intros Hne Hs. pose proof (words_length_pos words Hne) as Hn.
  split; [intros k; by apply iter_next_index|].
  split; [intros k; by apply iter_prev_index|].
  split; [|split; [|split]].
  - rewrite iter_next_index by done. fold (words_length words).
    replace (currentIndex s + words_length words)
      with (currentIndex s + 1 * words_length words) by lia.
    rewrite Z.mod_add by lia. apply Z.mod_small, Hs.
  - rewrite iter_prev_index by done. fold (words_length words).
    replace (currentIndex s - words_length words)
      with (currentIndex s + (-1) * words_length words) by lia.
    rewrite Z.mod_add by lia. apply Z.mod_small, Hs.
  - rewrite (handleNext_index words Hne) by (by apply handlePrev_in_bounds).
    rewrite (handlePrev_index words Hne) by done.
    rewrite Zplus_mod_idemp_l. replace (currentIndex s - 1 + 1) with (currentIndex s) by lia.
    apply Z.mod_small, Hs.
  - intros j Hj. rewrite iter_next_index; [|done|unfold in_bounds; cbn; lia].
    cbn [currentIndex initial]. apply Z.mod_small. unfold words_length. lia.
Qed.

Lemma navigation_cycles_witness :
  ["a"; "b"; "c"] ≠ [] ∧ in_bounds ["a"; "b"; "c"] (mkState 1 true) ∧
  currentIndex (Nat.iter 3 (handleNext ["a"; "b"; "c"]) (mkState 1 true)) = 1.
Proof.
  assert (Hne : ["a"; "b"; "c"] ≠ []) by discriminate.
  assert (Hs : in_bounds ["a"; "b"; "c"] (mkState 1 true))
    by (unfold in_bounds, words_length; cbn; lia).
  split; [exact Hne|]. split; [exact Hs|].
  destruct (navigation_cycles ["a"; "b"; "c"] (mkState 1 true) Hne Hs) as (_ & _ & H3 & _).
  exact H3.
Defined.

(** *** The progress bar *)

(** X10.  For an in-bounds index on a non-empty list, the progress
    percentage is above 0 and at most 100, it is 100 exactly on the last
    card, and a click on next from any card but the last raises it. *)
Theorem progressPercentage_range {A : Type} (words : list A) (s : State) :
  words ≠ [] → in_bounds words s →
  (0 < progressPercentage words s)%Q ∧
  (progressPercentage words s <= 100)%Q ∧
  ((progressPercentage words s == 100)%Q ↔ currentIndex s = words_length words - 1) ∧
  (currentIndex s < words_length words - 1 →
   (progressPercentage words s < progressPercentage words (handleNext words s))%Q).
Proof.
  intros Hne Hs. pose proof (words_length_pos words Hne) as Hn.
  unfold in_bounds in Hs. unfold progressPercentage.
  assert (Hdiv : ∀ a : Z,
    (inject_Z a / inject_Z (words_length words) * 100 ==
     (a * 100) # Z.to_pos (words_length words))%Q).
  { intros a. set (n := words_length words) in *.
    unfold Qeq, Qdiv, Qmult, Qinv, inject_Z. cbn.
    destruct n as [|p|p] eqn:E; try lia. cbn. lia. }
  assert (Hpos : Z.pos (Z.to_pos (words_length words)) = words_length words)
    by (apply Z2Pos.id; lia).
  split; [|split; [|split]].
  - rewrite Hdiv. unfold Qlt. cbn. lia.
  - rewrite Hdiv. unfold Qle. cbn. rewrite Hpos. lia.
  - rewrite Hdiv. unfold Qeq. cbn. rewrite Hpos. lia.
  - intros Hlast. rewrite !Hdiv. unfold Qlt. cbn.
    unfold js_mod. rewrite Z.rem_small by lia. nia.
Qed.

Lemma progressPercentage_range_witness :
  ["a"; "b"; "c"; "d"] ≠ [] ∧ in_bounds ["a"; "b"; "c"; "d"] (mkState 3 false) ∧
  (progressPercentage ["a"; "b"; "c"; "d"] (mkState 3 false) <= 100)%Q.
Proof.
  assert (Hne : ["a"; "b"; "c"; "d"] ≠ []) by discriminate.
  assert (Hs : in_bounds ["a"; "b"; "c"; "d"] (mkState 3 false))
    by (unfold in_bounds, words_length; cbn; lia).
  split; [exact Hne|]. split; [exact Hs|].
  exact (proj1 (proj2 (progressPercentage_range _ _ Hne Hs))).
Defined.

End FlashcardFacts.

(** ** [JSON.parse] reads back what [JSON.stringify] writes *)
Module JsonFacts.
Import Types Json.
#[local] Open Scope list_scope.

(** *** Strings *)

Lemma parse_string_body_escape (c : ascii) (rest : list ascii) :
  parse_string_body (escape c ++ rest) = cons_fst c <$> parse_string_body rest.
Proof.
  destruct c as [[] [] [] [] [] [] [] []]; reflexivity.
Qed.

Lemma parse_string_body_print (s rest : list ascii) :
  parse_string_body (flat_map escape s ++ quote :: rest) = Some (s, rest).
Proof.
  induction s as [|c s IH]; [reflexivity|].
  cbn [flat_map]. rewrite <- app_assoc, parse_string_body_escape, IH.
  reflexivity.
Qed.

Lemma parse_string_print (s : string) (rest : list ascii) :
  parse_string (print_string s ++ rest) = Some (s, rest).
Proof.
  unfold print_string, parse_string.
  cbn [app]. change (code quote =? 34)%N with true. cbv iota.
  rewrite <- app_assoc. cbn [app].
  rewrite parse_string_body_print. cbn.
  by rewrite string_of_list_ascii_of_string.
Qed.

Lemma print_string_head (s : string) :
  ∃ t, print_string s = quote :: t.
Proof. unfold print_string. eauto. Qed.

(** *** Numbers *)

Lemma parse_digits_print (u : Decimal.uint) (l : list ascii) :
  after_value l → parse_digits (print_digits u ++ l) = (u, l).
Proof.
  intros [r Hl].
  induction u as [|u IH|u IH|u IH|u IH|u IH|u IH|u IH|u IH|u IH|u IH];
    [destruct Hl as [-> | ->]; reflexivity| ..];
    cbn [print_digits app parse_digits]; cbn [digit_of]; cbn; by rewrite IH.
Qed.

Lemma nzhead_not_D0 (u v : Decimal.uint) : Decimal.nzhead u ≠ Decimal.D0 v.
Proof. induction u; cbn [Decimal.nzhead]; done. Qed.

Lemma unorm_fixed_valid (u : Decimal.uint) :
  Decimal.unorm u = u → valid_digits u = true.
Proof.
  destruct u as [|u| | | | | | | | |]; try reflexivity.
  - discriminate.
  - rewrite DecimalFacts.unorm_D0. intros H.
    destruct u as [|u| | | | | | | | |]; [reflexivity|..]; exfalso;
      unfold Decimal.unorm in H;
      match type of H with
      | match ?h with _ => _ end = _ => destruct h eqn:E
      end; try discriminate H;
      injection H as ->; by eapply nzhead_not_D0.
Qed.

Lemma to_uint_valid (p : positive) : valid_digits (Pos.to_uint p) = true.
Proof.
  apply unorm_fixed_valid.
  rewrite <- (DecimalPos.Unsigned.to_of (Pos.to_uint p)), DecimalPos.Unsigned.of_to.
  reflexivity.
Qed.

Lemma to_int_valid (n : Z) :
  valid_digits (match Z.to_int n with Decimal.Pos u | Decimal.Neg u => u end) = true.
Proof.
  destruct n; [reflexivity | apply to_uint_valid | apply to_uint_valid].
Qed.

Lemma ends_number_after_value (l : list ascii) : after_value l → ends_number l = true.
Proof. intros [r [-> | ->]]; reflexivity. Qed.

Lemma parse_number_digits (u : Decimal.uint) (l : list ascii) :
  valid_digits u = true → after_value l →
  parse_number (print_digits u ++ l) = Some (Z.of_int (Decimal.Pos u), l).
Proof.
  intros Hv Hl. unfold parse_number.
  assert (Hhead : match print_digits u ++ l with
                  | c :: l1 => if (code c =? 45)%N then (true, l1) else (false, print_digits u ++ l)
                  | [] => (false, print_digits u ++ l)
                  end = (false, print_digits u ++ l)).
  { destruct u; try reflexivity. destruct Hl as [r [-> | ->]]; reflexivity. }
  rewrite Hhead, parse_digits_print by done. cbn [fst snd].
  by rewrite Hv, ends_number_after_value.
Qed.

Lemma parse_number_print (n : Z) (l : list ascii) :
  after_value l → parse_number (print_number n ++ l) = Some (n, l).
Proof.
  intros Hl. pose proof (to_int_valid n) as Hv.
  pose proof (DecimalZ.of_to n) as Hn.
  unfold print_number. destruct (Z.to_int n) as [u|u].
  - rewrite parse_number_digits by done. by rewrite Hn.
  - unfold parse_number. cbn [app].
    change (code "-" =? 45)%N with true. cbv iota.
    rewrite parse_digits_print by done. cbn [fst snd].
    by rewrite Hv, ends_number_after_value, Hn.
Qed.

(** A number starts with a digit or the minus sign: no white space to
    skip, and not a string. *)
Lemma print_number_head (n : Z) :
  ∃ c t, print_number n = c :: t ∧ is_ws c = false ∧ (code c =? 34)%N = false.
Proof.
  pose proof (to_int_valid n) as Hv.
  unfold print_number. destruct (Z.to_int n) as [u|u].
  - destruct u; try discriminate; cbn [print_digits]; eauto.
  - cbn. eauto.
Qed.

(** *** Values, members, objects, arrays *)

Lemma parse_value_print (v : JSValue) (l : list ascii) :
  after_value l → parse_value (print_value v ++ l) = Some (v, l).
Proof.
  intros Hl. unfold parse_value. destruct v as [s|n]; cbn [print_value].
  - destruct (print_string_head s) as [t Ht].
    pose proof (parse_string_print s l) as Hp. rewrite Ht in *.
    cbn [app skip_ws]. change (is_ws quote) with false. cbv iota.
    change (code quote =? 34)%N with true. cbv iota.
    cbn [app] in Hp. by rewrite Hp.
  - destruct (print_number_head n) as (c & t & Ht & Hws & Hq).
    pose proof (parse_number_print n l Hl) as Hp. rewrite Ht in *.
    cbn [app skip_ws]. rewrite Hws, Hq.
    cbn [app] in Hp. by rewrite Hp.
Qed.

Lemma skip_ws_print_string (s : string) (l : list ascii) :
  skip_ws (print_string s ++ l) = print_string s ++ l.
Proof. reflexivity. Qed.

Lemma parse_member_print (m : string * JSValue) (l : list ascii) :
  after_value l → parse_member (print_member m ++ l) = Some (m, l).
Proof.
  intros Hl. unfold parse_member, print_member. destruct m as [k v]. cbn [fst snd].
  rewrite <- app_assoc, skip_ws_print_string, parse_string_print.
  cbn [mbind option_bind app skip_ws]. change (is_ws ":") with false. cbv iota.
  change (code ":" =? 58)%N with true. cbv iota.
  by rewrite parse_value_print.
Qed.

Lemma after_value_members_tail (ms : Members) (l : list ascii) :
  after_value (print_members_tail ms ++ l).
Proof. destruct ms; cbn; unfold after_value; eauto. Qed.

Lemma parse_members_tail_print (ms : Members) (l : list ascii) :
  ∀ fuel, (length ms < fuel)%nat →
    parse_members_tail fuel (print_members_tail ms ++ l) = Some (ms, l).
Proof.
  induction ms as [|m ms IH]; intros [|fuel] Hf; try (simpl in Hf; lia).
  - reflexivity.
  - cbn [print_members_tail app parse_members_tail skip_ws].
    change (is_ws ",") with false. cbv iota.
    change (code "," =? 125)%N with false. change (code "," =? 44)%N with true.
    cbv iota. rewrite <- app_assoc.
    rewrite parse_member_print by apply after_value_members_tail.
    cbn [mbind option_bind]. rewrite IH by (simpl in Hf; lia). reflexivity.
Qed.

Lemma parse_object_print (ms : Members) (l : list ascii) (fuel : nat) :
  (length ms < fuel)%nat →
  parse_object fuel (print_object ms ++ l) = Some (ms, l).
Proof.
  intros Hf. destruct ms as [|m ms]; [reflexivity|].
  unfold parse_object, print_object. cbn [app skip_ws].
  change (is_ws "{") with false. cbv iota.
  change (code "{" =? 123)%N with true. cbv iota.
  rewrite <- !app_assoc.
  pose proof (parse_member_print m (print_members_tail ms ++ l)
                (after_value_members_tail ms l)) as Hm.
  destruct m as [k v]. unfold print_member in *. cbn [fst snd] in *.
  rewrite <- app_assoc in *.
  rewrite skip_ws_print_string.
  destruct (print_string_head k) as [t Ht]. rewrite Ht in *. cbn [app] in *.
  change (code quote =? 125)%N with false. cbv iota.
  rewrite Hm. cbn [mbind option_bind].
  rewrite parse_members_tail_print by (simpl in Hf; lia). reflexivity.
Qed.

Lemma parse_elements_tail_print (os : list Members) (l : list ascii) :
  ∀ fuel, (length os < fuel)%nat → Forall (λ o, length o + length os < fuel)%nat os →
    parse_elements_tail fuel (print_elements_tail os ++ l) = Some (os, l).
Proof.
  induction os as [|o os IH]; intros [|fuel] Hf Hall; try (simpl in Hf; lia).
  - reflexivity.
  - cbn [print_elements_tail app parse_elements_tail skip_ws].
    change (is_ws ",") with false. cbv iota.
    change (code "," =? 93)%N with false. change (code "," =? 44)%N with true.
    cbv iota. rewrite <- app_assoc.
    inversion Hall as [|? ? Ho Hos]; subst. cbn [length] in *.
    rewrite parse_object_print by lia.
    cbn [mbind option_bind]. rewrite IH; [reflexivity | lia |].
    eapply Forall_impl; [exact Hos | simpl; intros; lia].
Qed.

Lemma parse_array_print (os : list Members) (l : list ascii) (fuel : nat) :
  (length os < fuel)%nat → Forall (λ o, length o + length os < fuel)%nat os →
  parse_array fuel (print_array os ++ l) = Some (os, l).
Proof.
  intros Hf Hall. destruct os as [|o os]; [reflexivity|].
  unfold parse_array, print_array. cbn [app skip_ws].
  change (is_ws "[") with false. cbv iota.
  change (code "[" =? 91)%N with true. cbv iota.
  rewrite <- !app_assoc.
  inversion Hall as [|? ? Ho Hos]; subst. cbn [length] in *.
  pose proof (parse_object_print o (print_elements_tail os ++ l) fuel ltac:(lia)) as Hp.
  unfold print_object in *. cbn [app skip_ws] in *.
  change (is_ws "{") with false. cbv iota.
  change (code "{" =? 93)%N with false. cbv iota.
  rewrite Hp. cbn [mbind option_bind].
  rewrite parse_elements_tail_print; [reflexivity | lia |].
  eapply Forall_impl; [exact Hos | simpl; intros; lia].
Qed.

(** *** The text is longer than any of its lists *)

Lemma print_members_tail_length (ms : Members) :
  (length ms < length (print_members_tail ms))%nat.
Proof.
  induction ms as [|m ms IH]; cbn [print_members_tail length]; [lia|].
  rewrite length_app. lia.
Qed.

Lemma print_object_length (ms : Members) :
  (S (length ms) < length (print_object ms))%nat.
Proof.
  destruct ms as [|m ms]; cbn [print_object length]; [lia|].
  rewrite length_app. pose proof (print_members_tail_length ms).
  destruct m as [k v]. unfold print_member, print_string.
  cbn [fst length]. rewrite length_app. cbn [length]. lia.
Qed.

Lemma print_elements_tail_length (os : list Members) :
  (length os < length (print_elements_tail os))%nat ∧
  Forall (λ o, length o + length os < length (print_elements_tail os))%nat os.
Proof.
  induction os as [|o os [IH1 IH2]]; cbn [print_elements_tail length].
  - split; [lia | constructor].
  - rewrite length_app. pose proof (print_object_length o). split; [lia|].
    constructor; [lia|]. eapply Forall_impl; [exact IH2 | simpl; intros; lia].
Qed.

Lemma print_array_length (os : list Members) :
  (length os < length (print_array os))%nat ∧
  Forall (λ o, length o + length os < length (print_array os))%nat os.
Proof.
  destruct os as [|o os]; cbn [print_array length].
  - split; [lia | constructor].
  - rewrite length_app. pose proof (print_object_length o).
    destruct (print_elements_tail_length os) as [H1 H2]. split; [lia|].
    constructor; [lia|]. eapply Forall_impl; [exact H2 | simpl; intros; lia].
Qed.

Lemma whole_parse_array_print (os : list Members) :
  whole parse_array (string_of_list_ascii (print_array os)) = Some os.
Proof.
  unfold whole. rewrite list_ascii_of_string_of_list_ascii.
  destruct (print_array_length os) as [H1 H2].
  pose proof (parse_array_print os [] _ H1 H2) as Hp.
  rewrite app_nil_r in Hp. rewrite Hp. reflexivity.
Qed.

Lemma whole_parse_object_print (ms : Members) :
  whole parse_object (string_of_list_ascii (print_object ms)) = Some ms.
Proof.
  unfold whole. rewrite list_ascii_of_string_of_list_ascii.
  pose proof (print_object_length ms) as H1.
  pose proof (parse_object_print ms [] (length (print_object ms)) ltac:(lia)) as Hp.
  rewrite app_nil_r in Hp. rewrite Hp. reflexivity.
Qed.

(** *** Examples *)

Example stringify_numbers :
  stringify [<["n" := VNum (-5)]> ∅; ∅; <["addedAt" := VNum 1700000000000]> ∅] =
  ("[{" ++ String quote "n" ++ String quote ":-5},{},{"
        ++ String quote "addedAt" ++ String quote ":1700000000000}]")%string.
Proof. reflexivity. Qed.

(** A quote inside a string is written with a backslash. *)
Example stringify_escapes :
  stringify [<["w" := VStr (String quote "a")]> ∅] =
  ("[{" ++ String quote "w" ++ String quote ":"
        ++ String quote (String backslash (String quote "a")) ++ String quote "}]")%string.
Proof. reflexivity. Qed.

(** White space between the tokens and escapes in a string are read. *)
Example parse_spaced :
  parse (" [ {" ++ String quote "a" ++ String quote " : 12 , "
           ++ String quote "b" ++ String quote ":"
           ++ String quote ("x" ++ String backslash "u0041" ++ String backslash "n")
           ++ String quote " } ] ")%string =
  Some [<["b" := VStr ("xA" ++ String (ascii_of_N 10) EmptyString)%string]> (<["a" := VNum 12]> ∅)].
Proof. reflexivity. Qed.

(** Not JSON: a leading zero, an open string, a missing bracket. *)
Example parse_rejects :
  parse ("[{" ++ String quote "a" ++ String quote ":012}]")%string = None ∧
  parse ("[{" ++ String quote "a}]")%string = None ∧
  parse "[{}" = None ∧
  parse "oops" = None.
Proof. repeat split. Qed.

(** *** Objects *)

Lemma object_of_app (ms : Members) (o : JSObject) :
  fold_left (λ o m, <[fst m := snd m]> o) ms o = list_to_map (reverse ms) ∪ o.
Proof.
  revert o. induction ms as [|[k v] ms IH]; intros o; cbn [fold_left].
  - rewrite reverse_nil. cbn [list_to_map foldr].
    by rewrite (left_id_L ∅ (∪)).
  - rewrite IH, reverse_cons, list_to_map_app. cbn [list_to_map foldr fst snd].
    rewrite <- (assoc_L (∪)). f_equal.
    by rewrite <- insert_union_l, (left_id_L ∅ (∪)).
Qed.

(** Any listing of the members of an object, in whatever order, gives the
    object back. *)
Lemma object_of_listing (ms : Members) (o : JSObject) :
  ms ≡ₚ map_to_list o → object_of ms = o.
Proof.
  intros Hp. unfold object_of. rewrite object_of_app, (right_id_L ∅ (∪)).
  rewrite <- (list_to_map_to_list o).
  apply list_to_map_proper.
  - rewrite fmap_reverse, reverse_Permutation, Hp.
    apply NoDup_fst_map_to_list.
  - by rewrite reverse_Permutation.
Qed.

Lemma object_of_members_of (o : JSObject) : object_of (members_of o) = o.
Proof. by apply object_of_listing. Qed.

Lemma parse_stringify (words : list JSObject) : parse (stringify words) = Some words.
Proof.
  unfold parse, stringify. rewrite whole_parse_array_print. cbn. f_equal.
  rewrite <- list_fmap_compose.
  rewrite <- (list_fmap_id words) at 2. apply list_fmap_ext.
  intros i o _. apply object_of_members_of.
Qed.

Lemma parse_stringify_object (o : JSObject) :
  parse_object_text (stringify_object o) = Some o.
Proof.
  unfold parse_object_text, stringify_object. rewrite whole_parse_object_print.
  cbn. f_equal. apply object_of_members_of.
Qed.

(** The text [stringify] would write from any other listing of the
    members parses to the same words. *)
Lemma parse_any_listing (words : list JSObject) (listings : list Members) :
  Forall2 (λ ms o, ms ≡ₚ map_to_list o) listings words →
  (λ os : list Members, object_of <$> os)
    <$> whole parse_array (string_of_list_ascii (print_array listings)) = Some words.
Proof.
  intros H. rewrite whole_parse_array_print. cbn. f_equal.
  induction H as [|ms o listings words Hmo _ IH]; [done|].
  cbn. by rewrite (object_of_listing ms o Hmo), IH.
Qed.

End JsonFacts.

(** ** The word list of [App.tsx] *)
Module AppFacts.
Import Types App Samples.

(** *** Saving a word *)

Lemma handleSaveWord_lookup uuid now (wordDef : JSObject) prev :
  ∃ newWord,
    handleSaveWord uuid now wordDef prev = newWord :: prev ∧
    newWord !! "id" = Some (VStr uuid) ∧
    newWord !! "addedAt" = Some (VNum now) ∧
    ∀ k, k ≠ "id" → k ≠ "addedAt" → newWord !! k = wordDef !! k.
Proof.
  eexists. split; [reflexivity|]. split; [|split].
  - by rewrite lookup_insert_ne, lookup_insert_eq.
  - by rewrite lookup_insert_eq.
  - intros k H1 H2. by rewrite !lookup_insert_ne.
Qed.

(** The search view has a generated image on screen when the word is
    saved: the word enters the list with its image reference present. *)
Lemma saved_word_carries_generated_image :
  ∃ newWord,
    WordSearch.handleSave (handleSaveWord "0b5c-01" 1700000000000)
      (Some apple) (Some apple_image) [] = [newWord] ∧
    is_WordDefinition apple ∧
    newWord !! "imageUrl" = Some (VStr apple_image) ∧
    newWord !! "imageUrl" ≠ None.
Proof.
  eexists. split; [reflexivity|]. split; [|split].
  - intros k Hk. unfold WordDefinition_keys in Hk.
    repeat (apply elem_of_cons in Hk as [-> | Hk]; [eexists; reflexivity|]).
    by apply elem_of_nil in Hk.
  - reflexivity.
  - discriminate.
Qed.

(** C5 (amended).  [handleSaveWord] prepends one word to the list.  That
    word has the identifier and the time it was given as [id] and
    [addedAt], and under every other name exactly what the passed object
    has: the seven fields of the word record, and an image or video
    reference if and only if the passed object carries one.  A passed
    object with the seven fields alone gives a saved word with neither
    reference.  The search view passes its generated image along: a word
    saved there with an image on screen has that image as its image
    reference, and the video reference of the search result, if any. *)
Theorem handleSaveWord_fields uuid now (wordDef : JSObject) (prev : list JSObject) :
  (∃ newWord,
     handleSaveWord uuid now wordDef prev = newWord :: prev ∧
     newWord !! "id" = Some (VStr uuid) ∧
     newWord !! "addedAt" = Some (VNum now) ∧
     (∀ k, k ≠ "id" → k ≠ "addedAt" → newWord !! k = wordDef !! k) ∧
     newWord !! "imageUrl" = wordDef !! "imageUrl" ∧
     newWord !! "videoUrl" = wordDef !! "videoUrl" ∧
     (dom wordDef = list_to_set WordDefinition_keys →
        dom newWord = list_to_set WordDefinition_keys ∪ {["id"; "addedAt"]} ∧
        newWord !! "imageUrl" = None ∧ newWord !! "videoUrl" = None)) ∧
  (∀ generatedImage, App.truthy generatedImage = true →
     ∃ newWord,
       WordSearch.handleSave (handleSaveWord uuid now) (Some wordDef) (Some generatedImage) prev
         = newWord :: prev ∧
       newWord !! "imageUrl" = Some (VStr generatedImage) ∧
       newWord !! "videoUrl" = wordDef !! "videoUrl" ∧
       (dom wordDef = list_to_set WordDefinition_keys → newWord !! "videoUrl" = None)).
Proof.
  split.
  2: { intros image Himage. unfold WordSearch.handleSave. rewrite Himage.
       eexists. split; [reflexivity|].
       split; [by rewrite !lookup_insert_ne, lookup_insert_eq by done|].
       split; [by rewrite !lookup_insert_ne by done|].
       intros Hdom. rewrite !lookup_insert_ne by done.
       apply not_elem_of_dom. rewrite Hdom.
       rewrite elem_of_list_to_set. unfold WordDefinition_keys.
       rewrite !elem_of_cons, elem_of_nil. intuition discriminate. }
  destruct (handleSaveWord_lookup uuid now wordDef prev) as (w & Hw & Hid & Hat & Hk).
  exists w. repeat split; try done.
  - by apply Hk.
  - by apply Hk.
  - unfold handleSaveWord in Hw. injection Hw as <-.
    rewrite !dom_insert_L, H. set_solver.
  - rewrite Hk by done. apply not_elem_of_dom. rewrite H.
    rewrite elem_of_list_to_set. unfold WordDefinition_keys.
    rewrite !elem_of_cons, elem_of_nil. intuition discriminate.
  - rewrite Hk by done. apply not_elem_of_dom. rewrite H.
    rewrite elem_of_list_to_set. unfold WordDefinition_keys.
    rewrite !elem_of_cons, elem_of_nil. intuition discriminate.
Qed.

(** *** Updating a word *)

Lemma spread2_lookup (w updates : JSObject) (k : string) :
  spread2 w updates !! k =
  match updates !! k with Some v => Some v | None => w !! k end.
Proof.
  unfold spread2. rewrite lookup_union.
  destruct (updates !! k), (w !! k); reflexivity.
Qed.

Lemma handleUpdateWord_lookup id updates (prev : list JSObject) (i : nat) :
  handleUpdateWord id updates prev !! i =
  (λ w, if id_is id w then spread2 w updates else w) <$> prev !! i.
Proof. unfold handleUpdateWord. apply list_lookup_fmap. Qed.

Lemma id_is_true id (w : JSObject) : id_is id w = true ↔ w !! "id" = Some (VStr id).
Proof. unfold id_is. apply bool_decide_eq_true. Qed.

Lemma id_is_false id (w : JSObject) : id_is id w = false ↔ w !! "id" ≠ Some (VStr id).
Proof. unfold id_is. apply bool_decide_eq_false. Qed.

(** C8.  [handleUpdateWord] keeps the length and the order of the list: at
    every position it leaves the word as it is when its [id] differs, and
    otherwise puts the word merged with the update, in which every field of
    the update replaces or extends the word's and every other field stays.
    With no word of that [id] the list is unchanged; with one word of that
    [id], the list changes at the position of that word only. *)
Theorem handleUpdateWord_frame (id : string) (updates : JSObject) (prev : list JSObject) :
  length (handleUpdateWord id updates prev) = length prev ∧
  (∀ i w, prev !! i = Some w →
     handleUpdateWord id updates prev !! i =
     Some (if id_is id w then spread2 w updates else w)) ∧
  (∀ w k, spread2 w updates !! k =
          match updates !! k with Some v => Some v | None => w !! k end) ∧
  (∀ i w, prev !! i = Some w → w !! "id" ≠ Some (VStr id) →
     handleUpdateWord id updates prev !! i = Some w) ∧
  ((∀ w, w ∈ prev → w !! "id" ≠ Some (VStr id)) →
     handleUpdateWord id updates prev = prev) ∧
  (∀ i w, prev !! i = Some w → w !! "id" = Some (VStr id) →
     (∀ j w', prev !! j = Some w' → w' !! "id" = Some (VStr id) → j = i) →
     handleUpdateWord id updates prev = <[i := spread2 w updates]> prev).
Proof.
  split; [|split; [|split; [|split; [|split]]]].
  - unfold handleUpdateWord. apply length_fmap.
  - intros i w Hi. by rewrite handleUpdateWord_lookup, Hi.
  - intros w k. apply spread2_lookup.
  - intros i w Hi Hne. rewrite handleUpdateWord_lookup, Hi. cbn.
    apply id_is_false in Hne. by rewrite Hne.
  - intros Hnone. apply list_eq. intros i.
    rewrite handleUpdateWord_lookup.
    destruct (prev !! i) as [w|] eqn:Hi; [|done]. cbn.
    assert (Hw : id_is id w = false).
    { apply id_is_false, Hnone. by eapply list_elem_of_lookup_2. }
    by rewrite Hw.
  - intros i w Hi Hid Huniq. apply list_eq. intros j.
    rewrite handleUpdateWord_lookup.
    destruct (decide (j = i)) as [->|Hji].
    + rewrite Hi, list_lookup_insert_eq by (by eapply lookup_lt_Some). cbn.
      apply id_is_true in Hid. by rewrite Hid.
    + rewrite list_lookup_insert_ne by done.
      destruct (prev !! j) as [w'|] eqn:Hj; [|done]. cbn.
      destruct (id_is id w') eqn:Hw'; [|done].
      apply id_is_true in Hw'. by destruct Hji; eapply Huniq.
Qed.

(** *** Persistence *)

Lemma truthy_stringify (words : list JSObject) : truthy (Json.stringify words) = true.
Proof. reflexivity. Qed.

Lemma load_save (words prev : list JSObject) (store : Storage) :
  load_effect (save_effect words store) prev = words.
Proof.
  unfold load_effect, save_effect. rewrite lookup_insert_eq.
  by rewrite truthy_stringify, JsonFacts.parse_stringify.
Qed.

Lemma stored_step (s : State) (a : Action) : stored (step s a).
Proof. unfold stored, step, save_effect. cbn. apply lookup_insert_eq. Qed.

Lemma stored_mount (store : Storage) : stored (mount store).
Proof. unfold stored, mount, save_effect. cbn. apply lookup_insert_eq. Qed.

Lemma stored_run (actions : list Action) :
  ∀ s, stored s → stored (run actions s).
Proof.
  unfold run. induction actions as [|a actions IH]; intros s Hs; [done|].
  cbn. apply IH, stored_step.
Qed.

Lemma mount_stored (s : State) : stored s → savedWords (mount (localStorage s)) = savedWords s.
Proof.
  unfold stored. intros Hs. unfold mount. cbn [savedWords].
  unfold load_effect.
  by rewrite Hs, truthy_stringify, JsonFacts.parse_stringify.
Qed.

Lemma other_keys_step (s : State) (a : Action) (k : string) :
  k ≠ STORAGE_KEY → localStorage (step s a) !! k = localStorage s !! k.
Proof. intros Hk. unfold step, save_effect. cbn. by rewrite lookup_insert_ne. Qed.

(** C6.  The save effect writes the text of the whole list under the one
    key [STORAGE_KEY] and touches no other key; the load effect on a store
    so written sets exactly the list that was saved, for every list of
    words.  So after mounting and after every change the store holds the
    text of the current list, and mounting again on that store starts from
    the same list. *)
Theorem persistence_round_trip (words : list JSObject) (store : Storage) :
  Json.parse (Json.stringify words) = Some words ∧
  (∀ prev, load_effect (save_effect words store) prev = words) ∧
  save_effect words store !! STORAGE_KEY = Some (Json.stringify words) ∧
  (∀ k, k ≠ STORAGE_KEY → save_effect words store !! k = store !! k) ∧
  (∀ actions, stored (run actions (mount store))) ∧
  (∀ s a, stored (step s a)) ∧
  (∀ actions,
     savedWords (mount (localStorage (run actions (mount store)))) =
     savedWords (run actions (mount store))).
Proof.
  split; [apply JsonFacts.parse_stringify|].
  split; [intros prev; apply load_save|].
  split; [apply lookup_insert_eq|].
  split; [intros k Hk; unfold save_effect; by rewrite lookup_insert_ne|].
  split; [intros actions; apply stored_run, stored_mount|].
  split; [apply stored_step|].
  intros actions. apply mount_stored, stored_run, stored_mount.
Qed.

(** *** Removing a word *)

Lemma handleRemoveWord_elem_of (id : string) (prev : list JSObject) (w : JSObject) :
  w ∈ handleRemoveWord id prev ↔ w ∈ prev ∧ w !! "id" ≠ Some (VStr id).
Proof.
  unfold handleRemoveWord. rewrite !list_elem_of_In, filter_In, negb_true_iff.
  by rewrite id_is_false.
Qed.

Lemma handleRemoveWord_sublist (id : string) (prev : list JSObject) :
  sublist (handleRemoveWord id prev) prev.
Proof.
  unfold handleRemoveWord. induction prev as [|w prev IH]; cbn; [constructor|].
  destruct (negb (id_is id w)); by constructor.
Qed.

Lemma handleRemoveWord_absent (id : string) (prev : list JSObject) :
  Forall (λ w : JSObject, w !! "id" ≠ Some (VStr id)) prev → handleRemoveWord id prev = prev.
Proof.
  unfold handleRemoveWord. induction 1 as [|w prev Hw _ IH]; cbn; [done|].
  apply id_is_false in Hw. by rewrite Hw, IH.
Qed.

(** X1.  [handleRemoveWord] keeps exactly the words whose [id] is not the
    given one, in their order: a word is in the result if and only if it was
    in the list with another [id]; no word of the result has that [id]; a
    list without that [id] is unchanged; and removing twice is removing
    once. *)
Theorem handleRemoveWord_filter (id : string) (prev : list JSObject) :
  (∀ w, w ∈ handleRemoveWord id prev ↔ w ∈ prev ∧ w !! "id" ≠ Some (VStr id)) ∧
  sublist (handleRemoveWord id prev) prev ∧
  (Some (VStr id) ∉ ids (handleRemoveWord id prev)) ∧
  (Some (VStr id) ∉ ids prev → handleRemoveWord id prev = prev) ∧
  handleRemoveWord id (handleRemoveWord id prev) = handleRemoveWord id prev.
Proof.
  assert (Hgone : Forall (λ w : JSObject, w !! "id" ≠ Some (VStr id)) (handleRemoveWord id prev)).
  { apply Forall_forall. intros w Hw. by apply handleRemoveWord_elem_of in Hw as [_ ?]. }
  split; [apply handleRemoveWord_elem_of|].
  split; [apply handleRemoveWord_sublist|].
  split; [|split].
  - unfold ids. rewrite list_elem_of_fmap. intros (w & Hid & Hw).
    rewrite Forall_forall in Hgone. by eapply Hgone.
  - intros Hout. apply handleRemoveWord_absent, Forall_forall. intros w Hw Hid.
    apply Hout. unfold ids. apply list_elem_of_fmap. eauto.
  - by apply handleRemoveWord_absent.
Qed.

(** X2.  Saving a word under an identifier no saved word has, and then
    removing that identifier, gives back the list as it was. *)
Theorem handleRemoveWord_handleSaveWord (uuid : string) (now : Z) (wordDef : JSObject)
    (prev : list JSObject) :
  Some (VStr uuid) ∉ ids prev →
  handleRemoveWord uuid (handleSaveWord uuid now wordDef prev) = prev.
Proof.
  intros Hfresh. unfold handleSaveWord, handleRemoveWord. cbn [List.filter].
  assert (Hnew : id_is uuid (<["addedAt" := VNum now]> (<["id" := VStr uuid]> wordDef)) = true).
  { apply id_is_true. by rewrite lookup_insert_ne, lookup_insert_eq. }
  rewrite Hnew. cbn. apply handleRemoveWord_absent, Forall_forall.
  intros w Hw Hid. apply Hfresh. unfold ids. apply list_elem_of_fmap. eauto.
Qed.

Lemma handleRemoveWord_handleSaveWord_witness :
  (Some (VStr "u-2") ∉ ids (handleSaveWord "u-1" 5 apple [])) ∧
  handleRemoveWord "u-2" (handleSaveWord "u-2" 7 apple (handleSaveWord "u-1" 5 apple [])) =
    handleSaveWord "u-1" 5 apple [].
Proof.
  assert (Hfresh : Some (VStr "u-2") ∉ ids (handleSaveWord "u-1" 5 apple [])).
  { unfold ids, handleSaveWord. cbn. rewrite lookup_insert_ne, lookup_insert_eq by done.
    rewrite elem_of_cons, elem_of_nil. intros [[=]|[]]. }
  split; [exact Hfresh|].
  exact (handleRemoveWord_handleSaveWord "u-2" 7 apple _ Hfresh).
Defined.

(** *** Updating twice, and the identifiers *)

(** X3.  [handleUpdateWord] with the same update applied twice gives what
    it gives applied once, whatever the update holds. *)
Theorem handleUpdateWord_idempotent (id : string) (updates : JSObject) (prev : list JSObject) :
  handleUpdateWord id updates (handleUpdateWord id updates prev) =
  handleUpdateWord id updates prev.
Proof.
  unfold handleUpdateWord. rewrite <- list_fmap_compose. apply list_fmap_ext.
  intros i w _. cbn. destruct (id_is id w) eqn:Hw; [|by rewrite Hw].
  destruct (id_is id (spread2 w updates)); [|done].
  unfold spread2. by rewrite (assoc_L (∪)), (idemp_L (∪)).
Qed.

Lemma handleUpdateWord_ids (id : string) (updates : JSObject) (prev : list JSObject) :
  updates !! "id" = None → ids (handleUpdateWord id updates prev) = ids prev.
Proof.
  intros Hu. unfold ids, handleUpdateWord. rewrite <- list_fmap_compose.
  apply list_fmap_ext. intros i w _. cbn.
  destruct (id_is id w); [|done]. by rewrite spread2_lookup, Hu.
Qed.

Lemma handleRemoveWord_ids_NoDup (id : string) (prev : list JSObject) :
  NoDup (ids prev) → NoDup (ids (handleRemoveWord id prev)).
Proof.
  intros Hnd. eapply sublist_NoDup; [exact Hnd|].
  unfold ids. apply fmap_sublist, handleRemoveWord_sublist.
Qed.

Lemma handle_ids_NoDup (a : Action) (savedWords : list JSObject) :
  proper savedWords a → NoDup (ids savedWords) → NoDup (ids (handle a savedWords)).
Proof.
  destruct a as [uuid now wordDef|id|id updates]; cbn [proper handle]; intros Hp Hnd.
  - unfold handleSaveWord, ids. cbn [fmap list_fmap].
    rewrite lookup_insert_ne, lookup_insert_eq by done. by constructor.
  - by apply handleRemoveWord_ids_NoDup.
  - by rewrite handleUpdateWord_ids.
Qed.

Lemma savedWords_run (actions : list Action) :
  ∀ s, savedWords (run actions s) = fold_left (λ l a, handle a l) actions (savedWords s).
Proof.
  unfold run. induction actions as [|a actions IH]; intros s; [done|].
  cbn [fold_left]. by rewrite IH.
Qed.

(** X4.  The identifiers of the saved words stay pairwise distinct: from a
    list where they are, through any sequence of saves under identifiers not
    in the list, removals, and updates that carry no [id]. *)
Theorem ids_stay_distinct (actions : list Action) (s : State) :
  NoDup (ids (savedWords s)) → proper_run actions (savedWords s) →
  NoDup (ids (savedWords (run actions s))).
Proof.
  rewrite savedWords_run. generalize (savedWords s). clear s.
  induction actions as [|a actions IH]; intros l Hnd Hp; [done|].
  destruct Hp as [Ha Hp]. cbn [fold_left]. apply IH; [|done].
  by apply handle_ids_NoDup.
Qed.

Lemma ids_stay_distinct_witness :
  let actions := [SaveWord "u-1" 5 apple; SaveWord "u-2" 7 apple;
                  UpdateWord "u-1" {["imageUrl" := VStr apple_image]};
                  RemoveWord "u-2"] in
  NoDup (ids (savedWords (mount ∅))) ∧
  proper_run actions (savedWords (mount ∅)) ∧
  NoDup (ids (savedWords (run actions (mount ∅)))).
Proof.
  intros actions.
  assert (Hnd : NoDup (ids (savedWords (mount ∅)))) by constructor.
  assert (Hp : proper_run actions (savedWords (mount ∅))).
  { cbn. unfold load_effect. rewrite lookup_empty. cbn.
    rewrite !lookup_insert_ne, !lookup_insert_eq by done.
    repeat split; try done.
    - apply not_elem_of_nil.
    - rewrite elem_of_cons, elem_of_nil. intros [[=]|[]]. }
  split; [exact Hnd|]. split; [exact Hp|].
  exact (ids_stay_distinct actions (mount ∅) Hnd Hp).
Defined.

(** X5.  An update without [id] leaves the identifier of every word, and
    so the identifiers of the list, as they were; of the fields of a word it
    changes only those the update names. *)
Theorem handleUpdateWord_keeps_ids (id : string) (updates : JSObject) (prev : list JSObject) :
  updates !! "id" = None →
  ids (handleUpdateWord id updates prev) = ids prev ∧
  ∀ i w w', prev !! i = Some w → handleUpdateWord id updates prev !! i = Some w' →
    w' !! "id" = w !! "id" ∧ ∀ k, updates !! k = None → w' !! k = w !! k.
Proof.
  intros Hu. split; [by apply handleUpdateWord_ids|].
  intros i w w' Hw Hw'. rewrite handleUpdateWord_lookup, Hw in Hw'. cbn in Hw'.
  injection Hw' as <-. destruct (id_is id w); [|done].
  split; [by rewrite spread2_lookup, Hu|].
  intros k Hk. by rewrite spread2_lookup, Hk.
Qed.

Lemma handleUpdateWord_keeps_ids_witness :
  let updates : JSObject := {["imageUrl" := VStr apple_image]} in
  let prev := handleSaveWord "u-1" 5 apple [] in
  updates !! "id" = None ∧
  ids (handleUpdateWord "u-1" updates prev) = ids prev.
Proof.
  intros updates prev.
  assert (Hu : updates !! "id" = None) by reflexivity.
  split; [exact Hu|].
  exact (proj1 (handleUpdateWord_keeps_ids "u-1" updates prev Hu)).
Defined.

(** *** The first run *)

(** X6.  With nothing stored under the key, or the empty text, the
    component mounts with the empty list and leaves the text of the empty
    list in the store; every other key of the store is as before. *)
Theorem mount_without_saved (store : Storage) :
  store !! STORAGE_KEY = None ∨ store !! STORAGE_KEY = Some EmptyString →
  savedWords (mount store) = [] ∧
  localStorage (mount store) !! STORAGE_KEY = Some "[]" ∧
  ∀ k, k ≠ STORAGE_KEY → localStorage (mount store) !! k = store !! k.
Proof.
  intros Hs.
  assert (Hl : load_effect store [] = []).
  { unfold load_effect. by destruct Hs as [-> | ->]. }
  unfold mount. rewrite Hl. cbn. unfold save_effect. split; [done|]. split.
  - by rewrite lookup_insert_eq.
  - intros k Hk. by rewrite !lookup_insert_ne.
Qed.

Lemma mount_without_saved_witness :
  let store : Storage := {["theme" := "dark"]} in
  (store !! STORAGE_KEY = None ∨ store !! STORAGE_KEY = Some EmptyString) ∧
  savedWords (mount store) = [] ∧
  localStorage (mount store) !! "theme" = Some "dark".
Proof.
  intros store.
  assert (Hs : store !! STORAGE_KEY = None ∨ store !! STORAGE_KEY = Some EmptyString)
    by (left; reflexivity).
  split; [exact Hs|].
  destruct (mount_without_saved store Hs) as (H1 & _ & H3).
  split; [exact H1|]. rewrite H3 by done. reflexivity.
Defined.

(** *** Saved words by name *)

Lemma word_of_handleSaveWord uuid now (wordDef : JSObject) :
  word_of (<["addedAt" := VNum now]> (<["id" := VStr uuid]> wordDef)) = word_of wordDef.
Proof. unfold word_of. by rewrite !lookup_insert_ne. Qed.

(** X7.  Once a word is saved, the search view shows it as saved: the set
    of saved names gains the lower-cased word, and any result whose word has
    the same lower-cased form, in whatever letter case, is marked saved, so
    that its save button is disabled. *)
Theorem saved_word_is_marked (toLowerCase : string → string) (uuid : string) (now : Z)
    (wordDef : JSObject) (prev : list JSObject) (word : string) (names : gset string) :
  word_of wordDef = Some word →
  savedWordIds toLowerCase prev = Some names →
  savedWordIds toLowerCase (handleSaveWord uuid now wordDef prev)
    = Some ({[toLowerCase word]} ∪ names) ∧
  ∀ (result : JSObject) w, word_of result = Some w → toLowerCase w = toLowerCase word →
    WordSearch.isSaved toLowerCase (Some result) ({[toLowerCase word]} ∪ names) = Some true.
Proof.
  intros Hword Hnames. split.
  - unfold savedWordIds, handleSaveWord in *. cbn [mapM].
    rewrite word_of_handleSaveWord, Hword. cbn.
    destruct (mapM _ prev) as [l|]; [|done]. cbn in *. by injection Hnames as <-.
  - intros result w Hw Heq. unfold WordSearch.isSaved. rewrite Hw. cbn.
    rewrite bool_decide_eq_true_2; [done|]. rewrite Heq. set_solver.
Qed.

Lemma saved_word_is_marked_witness :
  let shouted := mkWordDefinition "APPLE" "" "" "" "" "" "" in
  word_of apple = Some "apple" ∧
  savedWordIds lower [] = Some ∅ ∧
  WordSearch.isSaved lower (Some shouted) ({[lower "apple"]} ∪ ∅) = Some true.
Proof.
  intros shouted.
  assert (Hw : word_of apple = Some "apple") by reflexivity.
  assert (Hn : savedWordIds lower [] = Some ∅) by reflexivity.
  split; [exact Hw|]. split; [exact Hn|].
  destruct (saved_word_is_marked lower "u-1" 5 apple [] "apple" ∅ Hw Hn) as [_ H2].
  apply (H2 shouted "APPLE"); reflexivity.
Defined.

(** With distinct identifiers, an update changes the list at one place. *)
Lemma handleUpdateWord_at (id : string) (updates : JSObject) (prev : list JSObject)
    (i : nat) (w : JSObject) :
  NoDup (ids prev) → prev !! i = Some w → w !! "id" = Some (VStr id) →
  handleUpdateWord id updates prev = <[i := spread2 w updates]> prev.
Proof.
  intros Hnd Hi Hid. apply list_eq. intros j. rewrite handleUpdateWord_lookup.
  destruct (decide (j = i)) as [->|Hji].
  - rewrite Hi, list_lookup_insert_eq by (by eapply lookup_lt_Some). cbn.
    apply id_is_true in Hid. by rewrite Hid.
  - rewrite list_lookup_insert_ne by done.
    destruct (prev !! j) as [w'|] eqn:Hj; [|done]. cbn.
    destruct (id_is id w') eqn:Hw'; [|done]. apply id_is_true in Hw'.
    destruct Hji. eapply NoDup_lookup; [exact Hnd| |].
    + unfold ids. by rewrite list_lookup_fmap, Hj.
    + unfold ids. rewrite list_lookup_fmap, Hi. cbn. congruence.
Qed.

End AppFacts.

(** ** The remote AI client of [services/geminiService.ts] *)
Module GeminiFacts.
Import Types Gemini.

Section Runs.
Context `{Remote}.

Lemma run_await {A X} (r : Request X) (k : X → Prog A) (w : World) :
  run (await r k) w =
  match respond r w with
  | (Resolved x, w1) =>
    let '(out, cs, w2) := run (k x) w1 in (out, MkCall r :: cs, w2)
  | (Rejected e, w1) => (Threw e, [MkCall r], w1)
  end.
Proof.
  unfold await. cbn [run]. destruct (respond r w) as [[x|e] w1]; reflexivity.
Qed.

(** A handler that throws the error again changes nothing. *)
Lemma run_try_rethrow {A} (p : Prog A) :
  ∀ w, run (try_catch p (λ e, Throw e)) w = run p w.
Proof.
  induction p as [a|e|X r k IH|ms k IH|]; intros w; cbn [try_catch run]; try done.
  destruct (respond r w) as [res w1]. by rewrite IH.
Qed.

Lemma trace_await {A X} (r : Request X) (k : X → Prog A) (w : World) :
  trace (await r k) w =
  match respond r w with
  | (Resolved x, w1) => Called r (Resolved x) :: trace (k x) w1
  | (Rejected e, w1) => [Called r (Rejected e)]
  end.
Proof.
  unfold await. cbn [trace]. destruct (respond r w) as [[x|e] w1]; reflexivity.
Qed.

Lemma trace_try_rethrow {A} (p : Prog A) :
  ∀ w, trace (try_catch p (λ e, Throw e)) w = trace p w.
Proof.
  induction p as [a|e|X r k IH|ms k IH|]; intros w; cbn [try_catch trace].
  - done.
  - done.
  - destruct (respond r w) as [res w1]. by rewrite IH.
  - by rewrite IH.
  - done.
Qed.

(** The requests of a run are the requests among its events. *)
Lemma calls_trace {A} (p : Prog A) : ∀ w, calls p w = calls_of (trace p w).
Proof.
  unfold calls.
  induction p as [a|e|X r k IH|ms k IH|]; intros w; cbn [run trace].
  - done.
  - done.
  - specialize (IH (fst (respond r w)) (snd (respond r w))).
    destruct (respond r w) as [res w1]. cbn [fst snd] in IH.
    destruct (run (k res) w1) as [[out cs] w2]. cbn in *. by rewrite IH.
  - apply IH.
  - done.
Qed.

(** The client: built, or not. *)
Lemma getAI_built `{Builtins} {A} (k : Prog A) :
  GoogleGenAI API_KEY = None → getAI k = k.
Proof. unfold getAI. by intros ->. Qed.

Lemma getAI_throws `{Builtins} {A} (k : Prog A) (e : Error) :
  GoogleGenAI API_KEY = Some e → getAI k = Throw e.
Proof. unfold getAI. by intros ->. Qed.

Lemma getAI_no_request `{Builtins} {A} (k : Prog A) (e : Error) :
  GoogleGenAI API_KEY = Some e → no_request (getAI k) e.
Proof. intros He w. by rewrite (getAI_throws _ _ He). Qed.

(** A single request decides the run. *)
Lemma one_request_await {A X} (r : Request X) (k : Result X → Prog A) (f : Result X → Outcome A) :
  (∀ res w, run (k res) w = (f res, [], w) ∧ trace (k res) w = []) →
  one_request (Await r k) r f.
Proof.
  intros Hk w. unfold calls, outcome. cbn [run trace].
  destruct (respond r w) as [res w1]. destruct (Hk res w1) as [-> ->]. done.
Qed.

Lemma lookup_one_request `{Builtins} (word : string) :
  GoogleGenAI API_KEY = None →
  one_request (lookupWordInGemini word) (lookup_request word)
    (λ res, match res with
            | Resolved response =>
              match or_null (response_text response) with
              | Some t =>
                match JSON_parse t with
                | Some v => Returned v
                | None => Threw SyntaxError
                end
              | None => Threw (Failure "Failed to generate definition")
              end
            | Rejected e => Threw e
            end).
Proof.
  intros Hai. unfold lookupWordInGemini. rewrite (getAI_built _ Hai).
  apply one_request_await. intros [response|e] w; [|done]. unfold or_null.
  destruct (response_text response) as [t|]; [|done].
  destruct (App.truthy t); [|done].
  by destruct (JSON_parse t).
Qed.

Lemma analyze_one_request `{Builtins} (base64Image : string) :
  GoogleGenAI API_KEY = None →
  one_request (analyzeImageForVocabulary base64Image) (analyze_request base64Image)
    (λ res, match res with
            | Resolved response =>
              match or_null (response_text response) with
              | Some t =>
                match JSON_parse t with
                | Some v => Returned v
                | None => Threw SyntaxError
                end
              | None => Returned empty_array
              end
            | Rejected e => Threw e
            end).
Proof.
  intros Hai. unfold analyzeImageForVocabulary. rewrite (getAI_built _ Hai).
  apply one_request_await. intros [response|e] w; [|done]. unfold or_null.
  destruct (response_text response) as [t|]; [|done].
  destruct (App.truthy t); [|done].
  by destruct (JSON_parse t).
Qed.

Lemma tts_one_request `{Builtins} (text : string) :
  GoogleGenAI API_KEY = None →
  one_request (generateTTS text) (tts_request text)
    (λ res, match res with
            | Resolved response => Returned (or_null (first_inline_data response))
            | Rejected e => Returned None
            end).
Proof.
  intros Hai. unfold generateTTS. rewrite (getAI_built _ Hai).
  apply one_request_await. by intros [response|e] w.
Qed.

Lemma image_one_request `{Builtins} (word definition : string) :
  GoogleGenAI API_KEY = None →
  one_request (generateWordImage word definition) (image_request word definition)
    (λ res, match res with
            | Resolved response =>
              Returned (first_image (default [] (first_candidate_parts response)))
            | Rejected e => Threw e
            end).
Proof.
  intros Hai. unfold generateWordImage. rewrite (getAI_built _ Hai).
  apply one_request_await. by intros [response|e] w.
Qed.

Lemma one_request_remote_calls {A X} (p : Prog A) (r : Request X) f (w : World) :
  one_request p r f → is_remote_call (MkCall r) = true → remote_calls p w = 1%nat.
Proof.
  intros Hp Hr. destruct (Hp w) as (_ & Hc & _). unfold remote_calls.
  rewrite Hc. cbn [List.filter]. by rewrite Hr.
Qed.

Lemma no_request_remote_calls {A} (p : Prog A) (e : Error) (w : World) :
  no_request p e → remote_calls p w = 0%nat.
Proof.
  intros Hp. destruct (Hp w) as [_ Hrun]. unfold remote_calls, calls. by rewrite Hrun.
Qed.

(** *** The polling loop of the video generation *)

Lemma download_calls `{Builtins} (operation : Operation) (w : World) :
  after_poll (kind_of <$> calls
    (match or_null (download_link operation) with
     | None => Ret None
     | Some downloadLink =>
       await (Fetch (downloadLink ++ "&key=" ++ template API_KEY)) (λ response,
         await (ReadBlob response) (λ blob, Ret (Some (createObjectURL blob))))
     end) w).
Proof.
  unfold after_poll, calls.
  destruct (or_null (download_link operation)) as [link|]; [|by left].
  rewrite run_await. destruct (respond _ w) as [[response|e] w1]; [|by right; left].
  rewrite run_await. destruct (respond _ w1) as [[blob|e] w2]; by right; right.
Qed.

Lemma poll_calls {A} (k : Operation → Prog A) (fuel : nat) :
  (∀ operation w, after_poll (kind_of <$> calls (k operation) w)) →
  ∀ operation w, ∃ n tail,
    (n ≤ fuel)%nat ∧ after_poll tail ∧
    kind_of <$> calls (poll fuel operation k) w =
    (replicate n KGetVideosOperation ++ tail)%list.
Proof.
  intros Hk. induction fuel as [|fuel IH]; intros operation w.
  - cbn [poll]. destruct (done operation).
    + exists 0%nat. eexists. split; [lia|]. split; [apply Hk|done].
    + exists 0%nat, []. split; [lia|]. split; [by left|done].
  - cbn [poll]. destruct (done operation).
    + exists 0%nat. eexists. split; [lia|]. split; [apply Hk|done].
    + unfold calls. cbn [run]. rewrite run_await.
      destruct (respond _ (elapse 5000 w)) as [[operation'|e] w1].
      * destruct (IH operation' w1) as (n & tail & Hn & Htail & Hcalls).
        exists (S n), tail. split; [lia|]. split; [done|].
        unfold calls in Hcalls.
        destruct (run (poll fuel operation' k) w1) as [[out cs] w2].
        cbn in *. by rewrite Hcalls.
      * exists 1%nat, []. split; [lia|]. split; [by left|done].
Qed.

Lemma video_calls `{Builtins} (fuel : nat) (word context : string) (w : World) :
  GoogleGenAI API_KEY = None →
  ∃ n tail,
    (n ≤ fuel)%nat ∧ after_poll tail ∧
    kind_of <$> calls (generateWordVideo fuel word context) w =
    KGenerateVideos :: (replicate n KGetVideosOperation ++ tail)%list.
Proof.
  intros Hai. unfold generateWordVideo, calls.
  rewrite (getAI_built _ Hai), run_try_rethrow, run_await.
  destruct (respond _ w) as [[operation|e] w1].
  - edestruct (poll_calls _ fuel (λ operation w, download_calls operation w) operation w1)
      as (n & tail & Hn & Htail & Hcalls).
    exists n, tail. split; [done|]. split; [done|].
    unfold calls in Hcalls.
    match goal with |- context [run ?p w1] => destruct (run p w1) as [[out cs] w2] end.
    cbn in *. by rewrite Hcalls.
  - exists 0%nat, []. split; [lia|]. split; [by left|done].
Qed.

(** The events after a done operation. *)
Lemma download_protocol `{Builtins} (operation : Operation) (w : World) :
  done operation = true →
  video_protocol operation (trace
    (match or_null (download_link operation) with
     | None => Ret None
     | Some downloadLink =>
       await (Fetch (downloadLink ++ "&key=" ++ template API_KEY)) (λ response,
         await (ReadBlob response) (λ blob, Ret (Some (createObjectURL blob))))
     end) w).
Proof.
  intros Hd. destruct (or_null (download_link operation)) as [link|] eqn:Hl.
  - rewrite trace_await. destruct (respond _ w) as [[response|e] w1].
    + rewrite trace_await.
      destruct (respond _ w1) as [[blob|e] w2]; by eapply protocol_fetch.
    + by eapply protocol_fetch_rejected.
  - by apply protocol_no_link.
Qed.

(** The loop follows the protocol, when it is seen to its end. *)
Lemma poll_protocol `{Builtins} {A} (k : Operation → Prog A) (fuel : nat) :
  (∀ operation w, done operation = true → video_protocol operation (trace (k operation) w)) →
  ∀ operation w,
    fst (fst (run (poll fuel operation k) w)) ≠ Unfinished →
    video_protocol operation (trace (poll fuel operation k) w).
Proof.
  intros Hk. induction fuel as [|fuel IH]; intros operation w.
  - cbn [poll]. destruct (done operation) eqn:Hd; [intros _; by apply Hk|done].
  - cbn [poll]. destruct (done operation) eqn:Hd; [intros _; by apply Hk|].
    cbn [run trace]. rewrite run_await, trace_await.
    destruct (respond _ (elapse 5000 w)) as [[operation'|e] w1].
    + intros Hfin. apply protocol_poll; [done|]. apply IH.
      by destruct (run (poll fuel operation' k) w1) as [[out cs] w2].
    + intros _. by apply protocol_poll_rejected.
Qed.

(** With fuel for the polls the remote side needs, the loop is seen to its
    end. *)
Lemma poll_finishes {A} (k : Operation → Prog A) :
  (∀ operation w, fst (fst (run (k operation) w)) ≠ Unfinished) →
  ∀ n fuel operation w,
    (n ≤ fuel)%nat → done_within n operation w = true →
    fst (fst (run (poll fuel operation k) w)) ≠ Unfinished.
Proof.
  intros Hk. induction n as [|n IH]; intros fuel operation w Hle.
  - cbn [done_within]. rewrite orb_false_r. intros Hd.
    destruct fuel; cbn [poll]; rewrite Hd; apply Hk.
  - cbn [done_within]. destruct (done operation) eqn:Hd.
    + intros _. destruct fuel; cbn [poll]; rewrite Hd; apply Hk.
    + destruct fuel as [|fuel]; [lia|]. cbn [orb poll]. rewrite Hd.
      cbn [run]. rewrite run_await.
      destruct (respond _ (elapse 5000 w)) as [[operation'|e] w1]; [|done].
      intros Hn. specialize (IH fuel operation' w1 ltac:(lia) Hn).
      by destruct (run (poll fuel operation' k) w1) as [[out cs] w2].
Qed.

Lemma video_finishes `{Builtins} (n fuel : nat) (word context : string) (w : World) :
  (n ≤ fuel)%nat →
  match respond (video_request word context) w with
  | (Resolved operation, w1) => done_within n operation w1 = true
  | (Rejected _, _) => True
  end →
  outcome (generateWordVideo fuel word context) w ≠ Unfinished.
Proof.
  intros Hle. unfold generateWordVideo, outcome, getAI.
  destruct (GoogleGenAI API_KEY) as [e|]; [done|].
  rewrite run_try_rethrow, run_await.
  destruct (respond _ w) as [[operation|e] w1]; [|done].
  intros Hn.
  assert (Hk : ∀ operation w, fst (fst (run
    (match or_null (download_link operation) with
     | None => Ret None
     | Some downloadLink =>
       await (Fetch (downloadLink ++ "&key=" ++ template API_KEY)) (λ response,
         await (ReadBlob response) (λ blob, Ret (Some (createObjectURL blob))))
     end) w)) ≠ Unfinished).
  { intros o w0. destruct (or_null (download_link o)) as [link|]; [|done].
    rewrite run_await. destruct (respond _ w0) as [[response|e] w2]; [|done].
    rewrite run_await. by destruct (respond _ w2) as [[blob|e] w3]. }
  pose proof (poll_finishes _ Hk n fuel operation w1 Hle Hn) as Hfin.
  match goal with |- context [run ?p w1] => destruct (run p w1) as [[out cs] w2] end.
  done.
Qed.

Lemma video_trace `{Builtins} (fuel : nat) (word context : string) (w : World) :
  GoogleGenAI API_KEY = None →
  outcome (generateWordVideo fuel word context) w ≠ Unfinished →
  video_events word context (trace (generateWordVideo fuel word context) w).
Proof.
  intros Hai. unfold generateWordVideo, outcome.
  rewrite (getAI_built _ Hai), run_try_rethrow, trace_try_rethrow, run_await, trace_await.
  destruct (respond _ w) as [[operation|e] w1]; [|intros _; constructor].
  intros Hfin. apply events_started.
  apply (poll_protocol _ fuel (λ operation w, download_protocol operation w)).
  match goal with |- context [run ?p w1] => destruct (run p w1) as [[out cs] w2] end.
  done.
Qed.

End Runs.

(** *** The scripted remote side *)

(** With enough fuel for the polls the script asks for, the video
    generation ends, with the link to the fetched video. *)
Lemma poll_done {A} (k : Operation → Prog A) (fuel : nat) (operation : Operation) :
  done operation = true → poll fuel operation k = k operation.
Proof. intros Hd. destruct fuel; cbn [poll]; by rewrite Hd. Qed.

Lemma poll_scripted {A} (k : Operation → Prog A) reply (m : nat) :
  ∀ fuel, (m < fuel)%nat →
    ∃ cs, @run scripted A (poll fuel (mkOperation false None) k) (mkScript reply (S m)) =
          (let '(out, cs', w) := @run scripted A (k finished_operation) (mkScript reply 0) in
           (out, cs ++ cs', w))%list ∧
          kind_of <$> cs = replicate (S m) KGetVideosOperation.
Proof.
  induction m as [|m IH]; intros [|fuel] Hf; try lia.
  - exists [MkCall (GetVideosOperation (mkOperation false None))].
    cbn [poll done run respond scripted script_respond await elapse polls_left content_reply].
    rewrite poll_done by done. split; [|reflexivity].
    destruct (run (k finished_operation) _) as [[out cs'] w]. reflexivity.
  - destruct (IH fuel ltac:(lia)) as (cs & Hrun & Hkinds).
    exists (MkCall (GetVideosOperation (mkOperation false None)) :: cs).
    cbn [poll done run respond scripted script_respond await elapse polls_left content_reply].
    rewrite Hrun. split.
    + destruct (run (k finished_operation) _) as [[out cs'] w]. reflexivity.
    + cbn. by rewrite Hkinds.
Qed.

Lemma video_scripted `{Builtins} reply (m fuel : nat) (word context : string) :
  GoogleGenAI API_KEY = None →
  (m < fuel)%nat →
  @outcome scripted _ (generateWordVideo fuel word context) (mkScript reply (S m)) =
    Returned (Some (createObjectURL (BlobOf "mp4"))) ∧
  kind_of <$> @calls scripted _ (generateWordVideo fuel word context) (mkScript reply (S m)) =
    (KGenerateVideos :: replicate (S m) KGetVideosOperation ++ [KFetch; KReadBlob])%list.
Proof.
  intros Hai Hf. unfold outcome, calls, generateWordVideo.
  rewrite (getAI_built _ Hai), (@run_try_rethrow scripted).
  cbn [run await video_request respond scripted script_respond polls_left].
  edestruct (poll_scripted (A := option string)) as (cs & -> & Hkinds); [exact Hf|].
  cbn. split; [reflexivity|]. rewrite fmap_app, Hkinds. reflexivity.
Qed.

(** A use that takes two polls makes four requests to the remote side, not
    one: the start of the generation, the two polls and the fetch. *)
Lemma generateWordVideo_four_remote_calls :
  @remote_calls scripted _
    (generateWordVideo 10 "apple" "She ate an apple.")
    (mkScript (Rejected (Rejection "unused")) 2) = 4%nat ∧
  @remote_calls scripted _
    (generateWordVideo 10 "apple" "She ate an apple.")
    (mkScript (Rejected (Rejection "unused")) 2) ≠ 1%nat.
Proof. split; [reflexivity | discriminate]. Qed.

(** C3 (amended).  Each of the five operations starts by building its
    client.  When the constructor throws, the operation throws that error at
    once: no request, no wait.  When the client is built:
    - four operations (definition lookup, speech synthesis, image analysis,
      image generation) make exactly one request per use, with no wait, the
      same whatever the state of the remote side, and their outcome is a
      function of its answer alone;
    - video generation makes the request that starts the generation; then,
      for as long as the latest operation it received is not done, it waits
      five seconds and polls with that operation; once an operation is done
      it makes, when the operation has a download link, one fetch of the
      link with the API key and the read of the body, and no request
      otherwise; a rejected request ends the run.  The run is seen to its
      end with fuel for the polls the remote side needs; any number of
      polls occurs.
    The requests of a run are the requests among its events. *)
Theorem remote_requests_per_use `{Remote} `{Builtins} :
  (∀ e, GoogleGenAI API_KEY = Some e →
     (∀ word, no_request (lookupWordInGemini word) e) ∧
     (∀ text, no_request (generateTTS text) e) ∧
     (∀ image, no_request (analyzeImageForVocabulary image) e) ∧
     (∀ word definition, no_request (generateWordImage word definition) e) ∧
     (∀ fuel word context, no_request (generateWordVideo fuel word context) e)) ∧
  (GoogleGenAI API_KEY = None →
     (∀ word, ∃ f, one_request (lookupWordInGemini word) (lookup_request word) f) ∧
     (∀ text, ∃ f, one_request (generateTTS text) (tts_request text) f) ∧
     (∀ image, ∃ f, one_request (analyzeImageForVocabulary image) (analyze_request image) f) ∧
     (∀ word definition,
        ∃ f, one_request (generateWordImage word definition) (image_request word definition) f) ∧
     (∀ w word text image definition,
        remote_calls (lookupWordInGemini word) w = 1%nat ∧
        remote_calls (generateTTS text) w = 1%nat ∧
        remote_calls (analyzeImageForVocabulary image) w = 1%nat ∧
        remote_calls (generateWordImage word definition) w = 1%nat) ∧
     (∀ fuel word context w,
        outcome (generateWordVideo fuel word context) w ≠ Unfinished →
        video_events word context (trace (generateWordVideo fuel word context) w)) ∧
     (∀ n fuel word context w,
        (n ≤ fuel)%nat →
        match respond (video_request word context) w with
        | (Resolved operation, w1) => done_within n operation w1 = true
        | (Rejected _, _) => True
        end →
        outcome (generateWordVideo fuel word context) w ≠ Unfinished) ∧
     (∀ fuel word context w, ∃ n tail,
        (n ≤ fuel)%nat ∧ after_poll tail ∧
        kind_of <$> calls (generateWordVideo fuel word context) w =
        (KGenerateVideos :: replicate n KGetVideosOperation ++ tail)%list) ∧
     (∀ reply m fuel word context, (m < fuel)%nat →
        @outcome scripted _ (generateWordVideo fuel word context) (mkScript reply (S m)) =
          Returned (Some (createObjectURL (BlobOf "mp4"))) ∧
        kind_of <$> @calls scripted _ (generateWordVideo fuel word context) (mkScript reply (S m)) =
          (KGenerateVideos :: replicate (S m) KGetVideosOperation ++ [KFetch; KReadBlob])%list)) ∧
  (∀ A (p : Prog A) w, calls p w = calls_of (trace p w)).
Proof.
  split; [|split].
  - intros e He. split; [|split; [|split; [|split]]]; intros;
      unfold lookupWordInGemini, generateTTS, analyzeImageForVocabulary,
        generateWordImage, generateWordVideo;
      by apply getAI_no_request.
  - intros Hai.
    split; [intros; eexists; by apply lookup_one_request|].
    split; [intros; eexists; by apply tts_one_request|].
    split; [intros; eexists; by apply analyze_one_request|].
    split; [intros; eexists; by apply image_one_request|].
    split.
    { intros w word text image definition. repeat split.
      - by eapply one_request_remote_calls; [apply lookup_one_request|].
      - by eapply one_request_remote_calls; [apply tts_one_request|].
      - by eapply one_request_remote_calls; [apply analyze_one_request|].
      - by eapply one_request_remote_calls; [apply image_one_request|]. }
    split; [intros; by apply video_trace|].
    split; [intros; by eapply video_finishes|].
    split; [intros; by apply video_calls|].
    intros reply m fuel word context Hf. by apply video_scripted.
  - intros A p w. apply calls_trace.
Qed.

Lemma remote_requests_per_use_witness :
  let w := mkScript (Rejected (Rejection "unused")) 2 in
  let p := generateWordVideo 10 "apple" "She ate an apple." in
  @GoogleGenAI flat_builtins (@API_KEY flat_builtins) = None ∧
  @outcome scripted _ p w ≠ Unfinished ∧
  video_events "apple" "She ate an apple." (@trace scripted _ p w) ∧
  Waited 5000 ∈ @trace scripted _ p w.
Proof.
  intros w p.
  assert (Hai : @GoogleGenAI flat_builtins (@API_KEY flat_builtins) = None) by reflexivity.
  assert (Hfin : @outcome scripted _ p w ≠ Unfinished) by (vm_compute; discriminate).
  split; [exact Hai|]. split; [exact Hfin|]. split.
  - destruct (@remote_requests_per_use scripted flat_builtins) as (_ & Hbuilt & _).
    destruct (Hbuilt Hai) as (_ & _ & _ & _ & _ & Hvideo & _).
    exact (Hvideo 10%nat "apple" "She ate an apple." w Hfin).
  - vm_compute. apply elem_of_cons. right. apply elem_of_cons. by left.
Defined.

(** *** The word lookup *)

(** The text of a response cut off before the closing brace. *)
Lemma truncated_word_text :
  truncated_text = String "{" (dq ++ "word" ++ dq ++ ":" ++ dq ++ "apple" ++ dq) ∧
  App.truthy truncated_text = true ∧
  JSON_parse truncated_text = None.
Proof. repeat split. Qed.

(** The response has text, and the lookup throws instead of returning a
    word record. *)
Lemma lookupWordInGemini_throws_on_text :
  ∃ response t,
    fst (@respond scripted _ (lookup_request "apple") truncated_script) = Resolved response ∧
    response_text response = Some t ∧ App.truthy t = true ∧
    @outcome scripted _ (lookupWordInGemini "apple") truncated_script = Threw SyntaxError ∧
    ∀ v, @outcome scripted _ (lookupWordInGemini "apple") truncated_script ≠ Returned v.
Proof.
  exists (mkResponse (Some truncated_text) None), truncated_text.
  repeat split; discriminate.
Qed.

(** C4 (amended).  For every word, [lookupWordInGemini] builds its client,
    throwing what the constructor throws before any request; with the
    client built it makes the one lookup request and
    - returns the value [JSON.parse] reads from the text of the response,
      when the response has text and that text is well-formed JSON; for the
      text of a word record this is the record, with the word, the
      phonetic, the part of speech, both definitions and the example with
      its translation;
    - throws the [SyntaxError] of [JSON.parse] when the response has text
      that is not well-formed JSON;
    - throws [Error("Failed to generate definition")] when the response
      has no text (none, or the empty text);
    - throws the reason when the request itself is rejected. *)
Theorem lookupWordInGemini_outcome `{Remote} (word : string) (w : World) :
  (∀ B : Builtins,
     match GoogleGenAI API_KEY with
     | Some e =>
       outcome (lookupWordInGemini word) w = Threw e ∧
       calls (lookupWordInGemini word) w = []
     | None =>
       calls (lookupWordInGemini word) w = [MkCall (lookup_request word)] ∧
       (∀ response t v,
          fst (respond (lookup_request word) w) = Resolved response →
          response_text response = Some t → App.truthy t = true →
          JSON_parse t = Some v →
          outcome (lookupWordInGemini word) w = Returned v) ∧
       (∀ response t,
          fst (respond (lookup_request word) w) = Resolved response →
          response_text response = Some t → App.truthy t = true →
          JSON_parse t = None →
          outcome (lookupWordInGemini word) w = Threw SyntaxError) ∧
       (∀ response,
          fst (respond (lookup_request word) w) = Resolved response →
          or_null (response_text response) = None →
          outcome (lookupWordInGemini word) w = Threw (Failure "Failed to generate definition")) ∧
       (∀ e,
          fst (respond (lookup_request word) w) = Rejected e →
          outcome (lookupWordInGemini word) w = Threw e)
     end) ∧
  (∀ response (record : JSObject),
     fst (respond (lookup_request word) w) = Resolved response →
     response_text response = Some (Json.stringify_object record) →
     is_WordDefinition record →
     outcome (lookupWordInGemini (H := flat_builtins) word) w = Returned (FObject record) ∧
     ∀ k, k ∈ WordDefinition_keys → ∃ s, record !! k = Some (VStr s)).
Proof.
  split.
  - intros B. destruct (GoogleGenAI API_KEY) as [e|] eqn:Hai.
    { destruct (getAI_no_request
        (await (lookup_request word) (λ response,
           match response_text response with
           | Some t =>
             if App.truthy t then
               match JSON_parse t with
               | Some v => Ret v
               | None => Throw SyntaxError
               end
             else Throw (Failure "Failed to generate definition")
           | None => Throw (Failure "Failed to generate definition")
           end)) e Hai w) as [_ Hrun].
      unfold outcome, calls, lookupWordInGemini. by rewrite Hrun. }
    destruct (lookup_one_request word Hai w) as (_ & Hcalls & Hout).
    split; [done|]. rewrite Hout. repeat split.
    + intros response t v -> Ht Htruthy Hparse. unfold or_null.
      by rewrite Ht, Htruthy, Hparse.
    + intros response t -> Ht Htruthy Hparse. unfold or_null.
      by rewrite Ht, Htruthy, Hparse.
    + by intros response -> ->.
    + by intros e ->.
  - intros response record Hres Ht Hrecord. split; [|done].
    destruct (lookup_one_request (H0 := flat_builtins) word eq_refl w) as (_ & _ & Hout).
    rewrite Hout, Hres. unfold or_null. rewrite Ht.
    change (App.truthy (Json.stringify_object record)) with true. cbv iota.
    cbn [JSON_parse flat_builtins].
    by rewrite JsonFacts.parse_stringify_object.
Qed.

(** *** Speech synthesis *)

(** Without an API key the browser build of the SDK refuses to build a
    client: [generateTTS] throws, although the claim lets it only return. *)
Lemma generateTTS_throws_without_key :
  let w := mkScript (Resolved (mkResponse None None)) 0 in
  @API_KEY keyless_builtins = None ∧
  @outcome scripted _ (@generateTTS keyless_builtins "apple") w =
    Threw (Failure "An API Key must be set when running in a browser") ∧
  @calls scripted _ (@generateTTS keyless_builtins "apple") w = [] ∧
  ¬ (∀ (B : Builtins) (text : string) (w : Script),
       ∃ r, @outcome scripted _ (@generateTTS B text) w = Returned r).
Proof.
  intros w. repeat split. intros Hall.
  destruct (Hall keyless_builtins "apple" w) as [r Hr]. discriminate Hr.
Qed.

(** C10 (amended).  For every text, [generateTTS] builds its client before
    the [try]: what the constructor throws is thrown by [generateTTS], with
    no request made.  With the client built it makes its one request and
    never throws, whatever the remote side does: it returns the inline data
    of the first part of the first candidate of the response, or [null]
    when any link of that chain is missing or the data is empty, and [null]
    when the request is rejected. *)
Theorem generateTTS_outcome `{Remote} `{Builtins} (text : string) (w : World) :
  match GoogleGenAI API_KEY with
  | Some e =>
    outcome (generateTTS text) w = Threw e ∧ calls (generateTTS text) w = []
  | None =>
    calls (generateTTS text) w = [MkCall (tts_request text)] ∧
    (∀ e, outcome (generateTTS text) w ≠ Threw e) ∧
    outcome (generateTTS text) w ≠ Unfinished ∧
    match fst (respond (tts_request text) w) with
    | Resolved response =>
      outcome (generateTTS text) w = Returned (or_null (first_inline_data response)) ∧
      first_inline_data response =
        (cs ← candidates response; c ← head cs; ct ← content c; ps ← parts ct;
         p ← head ps; b ← inlineData p; data b)
    | Rejected e => outcome (generateTTS text) w = Returned None
    end
  end.
Proof.
  destruct (GoogleGenAI API_KEY) as [e|] eqn:Hai.
  { unfold outcome, calls, generateTTS. by rewrite (getAI_throws _ _ Hai). }
  destruct (tts_one_request text Hai w) as (_ & Hcalls & Hout).
  split; [done|]. rewrite Hout.
  destruct (fst (respond (tts_request text) w)) as [response|e];
    repeat split; try discriminate.
  unfold first_inline_data, first_candidate_parts.
  destruct (candidates response) as [[|c cs]|]; try reflexivity. cbn.
  destruct (content c) as [ct|]; reflexivity.
Qed.

(** *** Image generation *)

Lemma first_image_None (ps : list Part) :
  first_image ps = None ↔ Forall (λ p, inlineData p = None) ps.
Proof.
  induction ps as [|p ps IH]; cbn; [by split; [constructor|]|].
  destruct (inlineData p) as [b|] eqn:Hp.
  - split; [done|]. intros Hall. inversion Hall; congruence.
  - rewrite IH. split; [by constructor|]. by inversion 1.
Qed.

Lemma first_image_Some (ps : list Part) (url : string) :
  first_image ps = Some url →
  ∃ before p b after,
    ps = (before ++ p :: after)%list ∧
    Forall (λ p, inlineData p = None) before ∧
    inlineData p = Some b ∧
    url = "data:image/png;base64," ++ template (data b).
Proof.
  induction ps as [|p ps IH]; cbn; [done|].
  destruct (inlineData p) as [b|] eqn:Hp.
  - intros [= <-]. exists [], p, b, ps. by repeat split.
  - intros Hu. destruct (IH Hu) as (before & p' & b & after & -> & Hb & Hp' & ->).
    exists (p :: before), p', b, after. repeat split; try done. by constructor.
Qed.

(** X11.  [generateWordImage] builds its client before the [try], throwing
    what the constructor throws with no request made.  With the client
    built it makes its one request and then: rejects with the reason of a
    rejected request (the error is thrown on, not turned into [null]);
    returns [null] exactly when no part of the first candidate carries
    inline data; and otherwise returns the data of the first part that
    does, as a PNG data URL. *)
Theorem generateWordImage_result `{Remote} `{Builtins} (word definition : string) (w : World) :
  match GoogleGenAI API_KEY with
  | Some e =>
    outcome (generateWordImage word definition) w = Threw e ∧
    calls (generateWordImage word definition) w = []
  | None =>
    calls (generateWordImage word definition) w = [MkCall (image_request word definition)] ∧
    match fst (respond (image_request word definition) w) with
    | Rejected e => outcome (generateWordImage word definition) w = Threw e
    | Resolved response =>
      let ps := default [] (first_candidate_parts response) in
      ∃ r, outcome (generateWordImage word definition) w = Returned r ∧
        (r = None ↔ Forall (λ p, inlineData p = None) ps) ∧
        (∀ url, r = Some url →
           ∃ before p b after,
             ps = (before ++ p :: after)%list ∧
             Forall (λ p, inlineData p = None) before ∧
             inlineData p = Some b ∧
             url = "data:image/png;base64," ++ template (data b))
    end
  end.
Proof.
  destruct (GoogleGenAI API_KEY) as [e|] eqn:Hai.
  { unfold outcome, calls, generateWordImage. by rewrite (getAI_throws _ _ Hai). }
  destruct (image_one_request word definition Hai w) as (_ & Hcalls & Hout).
  split; [done|]. rewrite Hout.
  destruct (fst (respond (image_request word definition) w)) as [response|e]; [|done].
  cbn. eexists. split; [reflexivity|]. split.
  - apply first_image_None.
  - apply first_image_Some.
Qed.

(** *** Image analysis *)

(** X12.  [analyzeImageForVocabulary] builds its client, throwing what the
    constructor throws with no request made.  With the client built it
    makes its one request and returns the empty array when the response has
    no text (where the word lookup throws), the value [JSON.parse] reads
    when the text is well-formed; it then throws only the [SyntaxError] of
    a text that is not JSON or the reason of a rejected request. *)
Theorem analyzeImageForVocabulary_outcome `{Remote} `{Builtins} (image : string) (w : World) :
  match GoogleGenAI API_KEY with
  | Some e =>
    outcome (analyzeImageForVocabulary image) w = Threw e ∧
    calls (analyzeImageForVocabulary image) w = []
  | None =>
    calls (analyzeImageForVocabulary image) w = [MkCall (analyze_request image)] ∧
    match fst (respond (analyze_request image) w) with
    | Rejected e => outcome (analyzeImageForVocabulary image) w = Threw e
    | Resolved response =>
      match or_null (response_text response) with
      | None =>
        outcome (analyzeImageForVocabulary image) w = Returned empty_array ∧
        (∀ word, fst (respond (lookup_request word) w) = Resolved response →
         outcome (lookupWordInGemini word) w = Threw (Failure "Failed to generate definition"))
      | Some t =>
        match JSON_parse t with
        | Some v => outcome (analyzeImageForVocabulary image) w = Returned v
        | None => outcome (analyzeImageForVocabulary image) w = Threw SyntaxError
        end
      end
    end
  end.
Proof.
  destruct (GoogleGenAI API_KEY) as [e|] eqn:Hai.
  { unfold outcome, calls, analyzeImageForVocabulary. by rewrite (getAI_throws _ _ Hai). }
  destruct (analyze_one_request image Hai w) as (_ & Hcalls & Hout).
  split; [done|]. rewrite Hout.
  destruct (fst (respond (analyze_request image) w)) as [response|e]; [|done].
  destruct (or_null (response_text response)) as [t|] eqn:Ht.
  - by destruct (JSON_parse t).
  - split; [done|]. intros word Hl.
    destruct (lookup_one_request word Hai w) as (_ & _ & Hout'). by rewrite Hout', Hl, Ht.
Qed.

(** *** Video generation without polling *)

(** X13.  [generateWordVideo] builds its client before the [try], throwing
    what the constructor throws with no request made.  With the client
    built: when the request that starts the video generation is rejected,
    [generateWordVideo] rejects with the same reason after that one request.
    When it answers with an operation that is done: without a download link
    (none, or an empty one) the function returns [null] and makes no further
    request; with a link it fetches the link followed by [&key=] and the API
    key, and returns the object URL of the body, or rejects with the reason
    the fetch or the read of the body was rejected with. *)
Theorem generateWordVideo_done_at_once `{Remote} `{Builtins}
    (fuel : nat) (word context : string) (w : World) :
  let p := generateWordVideo fuel word context in
  let start := MkCall (video_request word context) in
  match GoogleGenAI API_KEY with
  | Some e => outcome p w = Threw e ∧ calls p w = []
  | None =>
    match respond (video_request word context) w with
    | (Rejected e, _) => outcome p w = Threw e ∧ calls p w = [start]
    | (Resolved operation, w1) =>
      done operation = true →
      match or_null (download_link operation) with
      | None => outcome p w = Returned None ∧ calls p w = [start]
      | Some link =>
        let url := link ++ "&key=" ++ template API_KEY in
        match respond (Fetch url) w1 with
        | (Rejected e, _) => outcome p w = Threw e ∧ calls p w = [start; MkCall (Fetch url)]
        | (Resolved r, w2) =>
          calls p w = [start; MkCall (Fetch url); MkCall (ReadBlob r)] ∧
          match respond (ReadBlob r) w2 with
          | (Rejected e, _) => outcome p w = Threw e
          | (Resolved blob, _) => outcome p w = Returned (Some (createObjectURL blob))
          end
        end
      end
    end
  end.
Proof.
  intros p start. subst p start. unfold outcome, calls, generateWordVideo.
  destruct (GoogleGenAI API_KEY) as [e|] eqn:Hai.
  { by rewrite (getAI_throws _ _ Hai). }
  rewrite (getAI_built _ Hai), run_try_rethrow, run_await.
  destruct (respond (video_request word context) w) as [[operation|e] w1]; [|done].
  intros Hdone. rewrite poll_done by done.
  destruct (or_null (download_link operation)) as [link|]; [|done].
  cbn zeta. rewrite run_await.
  destruct (respond (Fetch _) w1) as [[r|e] w2]; [|done].
  rewrite run_await.
  by destruct (respond (ReadBlob r) w2) as [[blob|e] w3].
Qed.

Lemma generateWordVideo_done_at_once_witness :
  let w := mkScript (Rejected (Rejection "unused")) 0 in
  done finished_operation = true ∧
  @outcome scripted _ (generateWordVideo 0 "apple" "She ate an apple.") w =
    Returned (Some "blob:mp4").
Proof.
  intros w.
  assert (Hd : done finished_operation = true) by reflexivity.
  split; [exact Hd|].
  pose proof (@generateWordVideo_done_at_once scripted flat_builtins 0
                "apple" "She ate an apple." w) as Hv.
  cbn in Hv. exact (proj2 (Hv Hd)).
Defined.

(** *** The polling loop runs until the operation is done *)

Section Fuel.
Context `{Remote}.

Lemma poll_more_fuel {A} (k : Operation → Prog A) (fuel : nat) :
  ∀ operation w fuel', (fuel ≤ fuel')%nat →
    fst (fst (run (poll fuel operation k) w)) ≠ Unfinished →
    run (poll fuel' operation k) w = run (poll fuel operation k) w.
Proof.
  induction fuel as [|fuel IH]; intros operation w fuel' Hle Hfin.
  - destruct (done operation) eqn:Hd; [by rewrite !poll_done|].
    cbn [poll] in Hfin. by rewrite Hd in Hfin.
  - destruct (done operation) eqn:Hd; [by rewrite !poll_done|].
    destruct fuel' as [|fuel']; [lia|].
    revert Hfin. cbn [poll]. rewrite Hd. cbn [run]. rewrite !run_await.
    destruct (respond (GetVideosOperation operation) (elapse 5000 w)) as [[operation'|e] w1];
      [|done].
    intros Hfin. rewrite (IH operation' w1 fuel'); [done | lia |].
    by destruct (run (poll fuel operation' k) w1) as [[out cs] w2].
Qed.

Lemma poll_unfinished {A} (k : Operation → Prog A) (fuel : nat) :
  (∀ operation w, fst (fst (run (k operation) w)) ≠ Unfinished) →
  ∀ operation w,
    fst (fst (run (poll fuel operation k) w)) = Unfinished →
    kind_of <$> snd (fst (run (poll fuel operation k) w)) = replicate fuel KGetVideosOperation.
Proof.
  intros Hk. induction fuel as [|fuel IH]; intros operation w.
  - cbn [poll]. destruct (done operation); [|done]. intros Hu. by apply Hk in Hu.
  - cbn [poll]. destruct (done operation); [intros Hu; by apply Hk in Hu|].
    cbn [run]. rewrite run_await.
    destruct (respond _ (elapse 5000 w)) as [[operation'|e] w1]; [|done].
    specialize (IH operation' w1).
    destruct (run (poll fuel operation' k) w1) as [[out cs] w2]. cbn in *.
    intros Hu. by rewrite IH.
Qed.

Lemma download_finishes `{Builtins} (operation : Operation) (w : World) :
  fst (fst (run
    (match or_null (download_link operation) with
     | None => Ret None
     | Some downloadLink =>
       await (Fetch (downloadLink ++ "&key=" ++ template API_KEY)) (λ response,
         await (ReadBlob response) (λ blob, Ret (Some (createObjectURL blob))))
     end) w)) ≠ Unfinished.
Proof.
  destruct (or_null (download_link operation)) as [link|]; [|done].
  rewrite run_await. destruct (respond _ w) as [[response|e] w1]; [|done].
  rewrite run_await. by destruct (respond _ w1) as [[blob|e] w2].
Qed.

End Fuel.

(** X14.  [generateWordVideo] never gives up polling by itself: a run that
    is cut off by the bound on the number of polls has made exactly that
    many polls after the start request, and a run that ended within a bound
    ends the same way, with the same requests, under every larger bound. *)
Theorem generateWordVideo_polls_until_done `{Remote} `{Builtins}
    (fuel : nat) (word context : string) (w : World) :
  (outcome (generateWordVideo fuel word context) w = Unfinished →
   kind_of <$> calls (generateWordVideo fuel word context) w =
   KGenerateVideos :: replicate fuel KGetVideosOperation) ∧
  (outcome (generateWordVideo fuel word context) w ≠ Unfinished →
   ∀ fuel', (fuel ≤ fuel')%nat →
     run (generateWordVideo fuel' word context) w = run (generateWordVideo fuel word context) w).
Proof.
  destruct (GoogleGenAI API_KEY) as [e|] eqn:Hai.
  { unfold outcome, calls, generateWordVideo.
    split; [by rewrite (getAI_throws _ _ Hai)|].
    intros _ fuel' _. by rewrite !(getAI_throws _ _ Hai). }
  assert (Hrun : ∀ f, run (generateWordVideo f word context) w =
    match respond (video_request word context) w with
    | (Resolved operation, w1) =>
      let '(out, cs, w2) :=
        run (poll f operation (λ operation,
          match or_null (download_link operation) with
          | None => Ret None
          | Some downloadLink =>
            await (Fetch (downloadLink ++ "&key=" ++ template API_KEY)) (λ response,
              await (ReadBlob response) (λ blob, Ret (Some (createObjectURL blob))))
          end)) w1 in
      (out, MkCall (video_request word context) :: cs, w2)
    | (Rejected e, w1) => (Threw e, [MkCall (video_request word context)], w1)
    end).
  { intros f. unfold generateWordVideo.
    by rewrite (getAI_built _ Hai), run_try_rethrow, run_await. }
  unfold outcome, calls. rewrite Hrun.
  destruct (respond (video_request word context) w) as [[operation|e] w1] eqn:Hr.
  - split.
    + intros Hu.
      pose proof (poll_unfinished _ fuel (λ o w, download_finishes o w) operation w1) as Hp.
      match goal with |- context [run ?p w1] => destruct (run p w1) as [[out cs] w2] end.
      cbn in *. by rewrite Hp.
    + intros Hfin fuel' Hle. rewrite Hrun.
      rewrite (poll_more_fuel _ fuel operation w1 fuel' Hle); [done|].
      match goal with |- context [run ?p w1] => destruct (run p w1) as [[out cs] w2] end.
      done.
  - split; [done|]. intros _ fuel' _. by rewrite Hrun.
Qed.

End GeminiFacts.

(** ** The live session of [components/LivePractice.tsx] *)
Module LivePracticeFacts.
Import Types LivePractice.
#[local] Open Scope Q_scope.
#[local] Open Scope list_scope.

(** *** Rational arithmetic *)

Lemma duration_nonneg (b : AudioBuffer) : 0 <= duration b.
Proof. unfold duration, Qle. cbn. lia. Qed.

Lemma Qmax_ge_l (x y : Q) : x <= Qmax x y.
Proof. apply Q.le_max_l. Qed.

(** [Math.max] returns its first argument when the second is not above. *)
Lemma Qmax_left (x y : Q) : y <= x → Qmax x y = x.
Proof.
  intros Hle. unfold Qmax, GenericMinMax.gmax.
  destruct (x ?= y) eqn:E; try reflexivity.
  apply Qlt_alt in E. exfalso. by eapply Qle_not_lt.
Qed.

Lemma Qle_plus_nonneg (x d : Q) : 0 <= d → x <= x + d.
Proof.
  intros Hd. rewrite <- (Qplus_0_r x) at 1. by apply Qplus_le_r.
Qed.

Section Session.
Context `{Externals}.

(** *** Interruption *)

Lemma stop_all_lookup (sources : gset nat) (ns : gmap nat SourceNode) (id : nat) :
  stop_all sources ns !! id =
  (λ n, if bool_decide (id ∈ sources)
        then mkSourceNode (buffer n) (startedAt n) true else n) <$> ns !! id.
Proof.
  unfold stop_all. rewrite map_lookup_imap.
  by destruct (ns !! id).
Qed.

Lemma handle_audio_sources (message : LiveServerMessage) (currentTime : Q) (s : State) :
  sourcesRef s ⊆ sourcesRef (handle_audio message currentTime s).
Proof.
  unfold handle_audio.
  destruct (Gemini.or_null _), (outputAudioContextRef s), (outputNodeRef s);
    cbn; set_solver.
Qed.

Lemma handle_audio_nodes (message : LiveServerMessage) (currentTime : Q) (s : State)
    (id : nat) (n : SourceNode) :
  nodes s !! id = Some n → nodes (handle_audio message currentTime s) !! id = Some n.
Proof.
  intros Hn. unfold handle_audio.
  destruct (Gemini.or_null _), (outputAudioContextRef s), (outputNodeRef s);
    cbn; try done.
  rewrite lookup_insert_ne; [done|]. intros <-.
  assert (Hin : fresh_node (nodes s) ∈ dom (nodes s)) by (apply elem_of_dom; eauto).
  exact (is_fresh (dom (nodes s)) Hin).
Qed.

(** *** Playback *)

Lemma onmessage_quiet (message : LiveServerMessage) (currentTime : Q) (s : State) :
  is_interrupted message = false →
  onmessage message currentTime s = handle_audio message currentTime s.
Proof. intros Hq. unfold onmessage, handle_interruption. by rewrite Hq. Qed.

Lemma gapless_app (l1 l2 : list Scheduled) :
  ∀ cursor, gapless cursor l1 → gapless (cursor_after cursor l1) l2 →
            gapless cursor (l1 ++ l2).
Proof.
  induction l1 as [|e l1 IH]; intros cursor H1 H2; [done|].
  destruct H1 as [He H1]. split; [done|]. by apply IH.
Qed.

Lemma cursor_after_app (l1 l2 : list Scheduled) (cursor : Q) :
  cursor_after cursor (l1 ++ l2) = cursor_after (cursor_after cursor l1) l2.
Proof. unfold cursor_after. apply fold_left_app. Qed.

(** Two neighbours in a back-to-back schedule. *)
Lemma gapless_neighbours (l : list Scheduled) :
  ∀ cursor i a b,
    gapless cursor l → Forall (λ e, 0 <= length_of e) l →
    l !! i = Some a → l !! S i = Some b →
    when b = Qmax (when a + length_of a) (arrival b) ∧
    when a + length_of a <= when b ∧
    when a <= when b ∧
    (arrival b <= when a + length_of a → when b = when a + length_of a).
Proof.
  induction l as [|e l IH]; intros cursor i a b Hg Hd Ha Hb; [done|].
  destruct Hg as [He Hg]. inversion Hd as [|? ? Hde Hdl]; subst.
  destruct i as [|i].
  - cbn in Ha. injection Ha as ->. destruct l as [|e' l]; [done|].
    cbn in Hb. injection Hb as ->. destruct Hg as [Hb _].
    split; [done|]. rewrite Hb. split; [apply Qmax_ge_l|]. split.
    + eapply Qle_trans; [by apply Qle_plus_nonneg | apply Qmax_ge_l].
    + apply Qmax_left.
  - by eapply (IH _ i).
Qed.

(** One quiet event: what it adds to the playlist. *)
Lemma handle_quiet (ctx : AudioContext) (e : Event) (s : State) :
  outputAudioContextRef s = Some ctx → is_Some (outputNodeRef s) → quiet e →
  ∃ new,
    playlist (handle s e) = playlist s ++ new ∧
    (λ x, (arrival x, length_of x)) <$> new = chunk_events ctx [e] ∧
    gapless (nextStartTimeRef s) new ∧
    Forall (λ x, 0 <= length_of x) new ∧
    nextStartTimeRef (handle s e) = cursor_after (nextStartTimeRef s) new ∧
    outputAudioContextRef (handle s e) = Some ctx ∧
    outputNodeRef (handle s e) = outputNodeRef s.
Proof.
  intros Hctx [g Hg] Hq. destruct e as [| |message currentTime|inputData|source| | |];
    try done; cbn [handle].
  - cbn in Hq. rewrite onmessage_quiet by done. unfold handle_audio.
    cbn [chunk_events]. rewrite Hctx, Hg.
    destruct (Gemini.or_null (base64Audio message)) as [audio|]; cbn.
    + eexists [_]. cbn. repeat split; try done.
      constructor; [apply duration_nonneg | constructor].
    + exists []. rewrite app_nil_r. by repeat split.
  - exists []. cbn. rewrite app_nil_r. by repeat split.
  - exists []. cbn. rewrite app_nil_r. by repeat split.
Qed.

Lemma chunk_events_cons (ctx : AudioContext) (e : Event) (events : list Event) :
  chunk_events ctx (e :: events) = chunk_events ctx [e] ++ chunk_events ctx events.
Proof.
  destruct e as [| |message currentTime| | | | |]; try reflexivity.
  cbn. by destruct (Gemini.or_null (base64Audio message)).
Qed.

Lemma run_quiet (ctx : AudioContext) (events : list Event) :
  ∀ s, outputAudioContextRef s = Some ctx → is_Some (outputNodeRef s) →
    Forall quiet events →
    ∃ new,
      playlist (run events s) = playlist s ++ new ∧
      (λ x, (arrival x, length_of x)) <$> new = chunk_events ctx events ∧
      gapless (nextStartTimeRef s) new ∧
      Forall (λ x, 0 <= length_of x) new ∧
      nextStartTimeRef (run events s) = cursor_after (nextStartTimeRef s) new.
Proof.
  induction events as [|e events IH]; intros s Hctx Hnode Hq.
  - exists []. cbn. rewrite app_nil_r. by repeat split.
  - inversion Hq as [|? ? He Hes]; subst.
    destruct (handle_quiet ctx e s Hctx Hnode He)
      as (new1 & Hp1 & Hc1 & Hg1 & Hd1 & Hn1 & Hctx1 & Hnode1).
    destruct (IH (handle s e) Hctx1 ltac:(by rewrite Hnode1) Hes)
      as (new2 & Hp2 & Hc2 & Hg2 & Hd2 & Hn2).
    exists (new1 ++ new2). cbn [run fold_left]. fold (run events (handle s e)).
    split; [by rewrite Hp2, Hp1, app_assoc|].
    split; [by rewrite fmap_app, Hc1, Hc2, <- chunk_events_cons|].
    split; [apply gapless_app; [done | by rewrite <- Hn1]|].
    split; [by apply Forall_app|].
    by rewrite Hn2, Hn1, cursor_after_app.
Qed.

(** The guard of the audio branch holds from [connect] on: no handler
    clears the output context or its gain node. *)
Lemma ready_connect (microphone : bool) (s : State) : ready (connect microphone s).
Proof. unfold ready, connect. destruct microphone; cbn; eauto. Qed.

Lemma ready_handle (e : Event) (s : State) : ready s → ready (handle s e).
Proof.
  unfold ready. intros [Hc Hn].
  destruct e as [microphone| |message currentTime|inputData|source| | |]; cbn [handle];
    try done.
  - apply ready_connect.
  - unfold onmessage, handle_interruption, handle_audio.
    destruct (is_interrupted message), (Gemini.or_null _),
      (outputAudioContextRef s) eqn:E1, (outputNodeRef s) eqn:E2; cbn;
      rewrite ?E1, ?E2; done.
  - destruct (isConnected s); [done | apply ready_connect].
Qed.

Lemma ready_run (events : list Event) : ∀ s, ready s → ready (run events s).
Proof.
  induction events as [|e events IH]; intros s Hs; [done|].
  cbn. by apply IH, ready_handle.
Qed.

(** *** Capture *)

Lemma handle_quiet_capture (e : Event) (s : State) :
  quiet e →
  processorRef (handle s e) = processorRef s ∧
  sent (handle s e) = sent s ++ (createBlob <$> buffers_of [e]).
Proof.
  intros Hq. destruct e as [| |message currentTime|inputData|source| | |];
    try done; cbn [handle buffers_of fmap list_fmap].
  - cbn in Hq. rewrite onmessage_quiet by done. unfold handle_audio.
    destruct (Gemini.or_null _), (outputAudioContextRef s), (outputNodeRef s);
      cbn; by rewrite app_nil_r.
  - cbn. by rewrite ?app_nil_r.
Qed.

Lemma buffers_of_cons (e : Event) (events : list Event) :
  buffers_of (e :: events) = buffers_of [e] ++ buffers_of events.
Proof. by destruct e. Qed.

Lemma run_quiet_capture (events : list Event) :
  ∀ s, Forall quiet events →
    processorRef (run events s) = processorRef s ∧
    sent (run events s) = sent s ++ (createBlob <$> buffers_of events).
Proof.
  induction events as [|e events IH]; intros s Hq.
  - cbn. by rewrite app_nil_r.
  - inversion Hq as [|? ? He Hes]; subst.
    destruct (handle_quiet_capture e s He) as [Hp1 Hs1].
    destruct (IH (handle s e) Hes) as [Hp2 Hs2].
    cbn [run fold_left]. fold (run events (handle s e)).
    split; [by rewrite Hp2|].
    by rewrite Hs2, Hs1, (buffers_of_cons e events), fmap_app, app_assoc.
Qed.

End Session.

(** C1.  When a server message carries the interrupted signal, the
    message handler leaves the pending-playback set empty and the
    next-start-time cursor at 0, and every source that was in the set, a
    source started for the audio of this very message included, has been
    stopped; the sources outside the set are not touched. *)
Theorem interruption_clears_playback `{Externals}
    (message : LiveServerMessage) (currentTime : Q) (s : State) :
  is_interrupted message = true →
  let pending := handle_audio message currentTime s in
  let s' := onmessage message currentTime s in
  sourcesRef s' = ∅ ∧
  nextStartTimeRef s' = 0 ∧
  sourcesRef s ⊆ sourcesRef pending ∧
  (∀ id n, id ∈ sourcesRef pending → nodes pending !! id = Some n →
     nodes s' !! id = Some (mkSourceNode (buffer n) (startedAt n) true)) ∧
  (∀ id n, id ∈ sourcesRef s → nodes s !! id = Some n →
     ∃ n', nodes s' !! id = Some n' ∧ stopped n' = true) ∧
  (∀ id, id ∉ sourcesRef pending → nodes s' !! id = nodes pending !! id).
Proof.
  intros Hi pending s'. subst pending s'.
  unfold onmessage, handle_interruption. rewrite Hi. cbn.
  split; [done|]. split; [done|]. split; [apply handle_audio_sources|].
  split; [|split].
  - intros id n Hin Hn. rewrite stop_all_lookup, Hn. cbn.
    by rewrite bool_decide_eq_true_2.
  - intros id n Hin Hn. eexists. split.
    + rewrite stop_all_lookup.
      rewrite (handle_audio_nodes message currentTime s id n Hn). cbn.
      rewrite bool_decide_eq_true_2; [done|].
      by apply handle_audio_sources.
    + done.
  - intros id Hout. rewrite stop_all_lookup.
    destruct (nodes _ !! id); [|done]. cbn.
    by rewrite bool_decide_eq_false_2.
Qed.

Lemma interruption_clears_playback_witness :
  let s := run [Connect true; Open;
                Message (audio_message "abcdefgh" false) (1 # 2);
                Message (audio_message "abcd" false) (1 # 2)] initial in
  let message := audio_message "ab" true in
  is_interrupted message = true ∧
  sourcesRef s = {[0%nat; 1%nat]} ∧
  sourcesRef (onmessage message 2 s) = ∅ ∧
  nextStartTimeRef (onmessage message 2 s) = 0.
Proof.
  intros s message.
  assert (Hi : is_interrupted message = true) by reflexivity.
  split; [exact Hi|]. split; [by vm_compute|].
  destruct (interruption_clears_playback message 2 s Hi) as (H1 & H2 & _).
  split; [exact H1 | exact H2].
Defined.

(** C2.  In an open session, over any sequence of events without an
    interruption, every inbound audio chunk adds one call of
    [source.start] whose start time is the later of the cursor and the
    context time at arrival, and moves the cursor to that start time plus
    the duration of the chunk.  So of two chunks in a row the second starts
    no earlier than the first ends (no overlap; start times never
    decrease), and exactly when the first ends if it arrived by then (no
    gap). *)
Theorem playback_back_to_back `{Externals}
    (ctx : AudioContext) (events : list Event) (s : State) :
  outputAudioContextRef s = Some ctx → is_Some (outputNodeRef s) →
  Forall quiet events →
  (∀ message currentTime, is_chunk message →
     let d := duration (chunk_buffer ctx message) in
     let start := Qmax (nextStartTimeRef s) currentTime in
     playlist (onmessage message currentTime s) =
       playlist s ++ [mkScheduled currentTime start d] ∧
     nextStartTimeRef (onmessage message currentTime s) = start + d ∧
     nextStartTimeRef s <= start ∧ currentTime <= start) ∧
  ∃ new,
    playlist (run events s) = playlist s ++ new ∧
    (λ x, (arrival x, length_of x)) <$> new = chunk_events ctx events ∧
    gapless (nextStartTimeRef s) new ∧
    nextStartTimeRef (run events s) = cursor_after (nextStartTimeRef s) new ∧
    (∀ i a b, new !! i = Some a → new !! S i = Some b →
       when b = Qmax (when a + length_of a) (arrival b) ∧
       when a + length_of a <= when b ∧
       when a <= when b ∧
       (arrival b <= when a + length_of a → when b = when a + length_of a)).
Proof.
  intros Hctx Hnode Hq. split.
  - intros message currentTime [[audio Ha] Hi] d start. subst d start.
    rewrite onmessage_quiet by done. unfold handle_audio, chunk_buffer.
    destruct Hnode as [g Hg]. rewrite Ha, Hctx, Hg. cbn.
    assert (Hb : base64Audio message = Some audio).
    { unfold Gemini.or_null in Ha. destruct (base64Audio message) as [a|]; [|done].
      destruct (App.truthy a); by inversion Ha. }
    rewrite Hb. cbn. repeat split; [apply Q.le_max_l | apply Q.le_max_r].
  - destruct (run_quiet ctx events s Hctx Hnode Hq) as (new & Hp & Hc & Hg & Hd & Hn).
    exists new. split; [done|]. split; [done|]. split; [done|]. split; [done|].
    intros i a b Ha Hb. by eapply gapless_neighbours.
Qed.

Lemma playback_back_to_back_witness :
  let s := run [Connect true; Open] initial in
  let events := [Message (audio_message "abcdefgh" false) (1 # 2);
                 AudioProcess [1 # 3];
                 Message (audio_message "abcd" false) (1 # 2);
                 Ended 0;
                 Message (audio_message "abcdabcd" false) 3] in
  outputAudioContextRef s = Some (mkAudioContext 24000) ∧
  is_Some (outputNodeRef s) ∧
  Forall quiet events ∧
  ∃ new, playlist (run events s) = playlist s ++ new ∧ length new = 3%nat.
Proof.
  intros s events.
  assert (Hctx : outputAudioContextRef s = Some (mkAudioContext 24000)) by reflexivity.
  assert (Hnode : is_Some (outputNodeRef s)) by (eexists; reflexivity).
  assert (Hq : Forall quiet events) by (repeat constructor).
  split; [exact Hctx|]. split; [exact Hnode|]. split; [exact Hq|].
  destruct (playback_back_to_back (mkAudioContext 24000) events s Hctx Hnode Hq)
    as (_ & new & Hp & Hc & _).
  exists new. split; [exact Hp|].
  apply (f_equal length) in Hc. rewrite length_fmap in Hc. exact Hc.
Defined.

(** C7.  The capture pipeline set up by [onopen] has a script processor of
    4096 sample frames.  While the session stays open, every audio-process
    event hands one frame to the session, built by [createBlob] from the
    whole input buffer of the event, in order; the platform delivers input
    buffers of the size of the processor, so each of them has exactly 4096
    samples. *)
Theorem outbound_frames_fixed_size `{Externals} (events : list Event) (s : State) :
  Forall quiet events →
  platform_events (onopen s) events →
  (bufferSize <$> processorRef (onopen s)) = Some 4096%nat ∧
  processorRef (run events (onopen s)) = processorRef (onopen s) ∧
  sent (run events (onopen s)) = sent s ++ (createBlob <$> buffers_of events) ∧
  Forall (λ inputData, length inputData = 4096%nat) (buffers_of events).
Proof.
  intros Hq Hplat. destruct (run_quiet_capture events (onopen s) Hq) as [Hp Hs].
  split; [done|]. split; [done|]. split; [done|].
  eapply Forall_impl; [exact Hplat|]. cbn.
  intros inputData (p & Hp' & Hlen). by injection Hp' as <-.
Qed.

Lemma outbound_frames_fixed_size_witness :
  let s := run [Connect true] initial in
  let events := [AudioProcess (replicate 4096 (1 # 2));
                 Message (audio_message "abcd" false) 1;
                 AudioProcess (replicate 4096 0)] in
  Forall quiet events ∧
  platform_events (onopen s) events ∧
  length (sent (run events (onopen s))) = 2%nat.
Proof.
  intros s events.
  assert (Hq : Forall quiet events) by (repeat constructor).
  assert (Hplat : platform_events (onopen s) events).
  { unfold platform_events. cbn [buffers_of events].
    repeat constructor; eexists; (split; [reflexivity|]); apply length_replicate. }
  split; [exact Hq|]. split; [exact Hplat|].
  destruct (outbound_frames_fixed_size events s Hq Hplat) as (_ & _ & Hs & _).
  rewrite Hs. reflexivity.
Defined.

(** *** Leaving the session *)

(** X15.  [cleanup] leaves the component disconnected, with volume 0, the
    cursor at 0, no pending source and no microphone stream; every source
    that was pending has been stopped and no other node is touched; the
    playlist and the frames already sent stay.  Running it again changes
    nothing, and closing the connection, or the toggle in a connected
    session, is [cleanup]. *)
Theorem cleanup_releases `{Externals} (s : State) :
  isConnected (cleanup s) = false ∧
  volume (cleanup s) = 0 ∧
  nextStartTimeRef (cleanup s) = 0 ∧
  sourcesRef (cleanup s) = ∅ ∧
  streamRef (cleanup s) = None ∧
  (∀ id n, id ∈ sourcesRef s → nodes s !! id = Some n →
     nodes (cleanup s) !! id = Some (mkSourceNode (buffer n) (startedAt n) true)) ∧
  (∀ id, id ∉ sourcesRef s → nodes (cleanup s) !! id = nodes s !! id) ∧
  playlist (cleanup s) = playlist s ∧
  sent (cleanup s) = sent s ∧
  cleanup (cleanup s) = cleanup s ∧
  handle s Close = cleanup s ∧
  (isConnected s = true → handle s Toggle = cleanup s).
Proof.
  repeat split; try done.
  - intros id n Hin Hn. cbn. rewrite bool_decide_eq_false_2 by set_solver.
    rewrite stop_all_lookup, Hn. cbn. by rewrite bool_decide_eq_true_2.
  - intros id Hout. cbn. destruct (bool_decide (sourcesRef s = ∅)); [done|].
    rewrite stop_all_lookup. destruct (nodes s !! id); [|done]. cbn.
    by rewrite bool_decide_eq_false_2.
  - unfold cleanup. cbn. f_equal.
    by destruct (processorRef s), (inputAudioContextRef s).
  - intros Hc. cbn. by rewrite Hc.
Qed.

(** *** What holds in every state *)

Section Reachable.
Context `{Externals}.

Lemma pending_live_handle_audio (message : LiveServerMessage) (currentTime : Q) (s : State) :
  pending_live s → pending_live (handle_audio message currentTime s).
Proof.
  intros Hs. unfold handle_audio.
  destruct (Gemini.or_null _), (outputAudioContextRef s), (outputNodeRef s); try done.
  intros id. cbn. rewrite elem_of_union, elem_of_singleton. intros [->|Hid].
  - rewrite lookup_insert_eq. eauto.
  - destruct (Hs id Hid) as (n & Hn & Hstop).
    rewrite lookup_insert_ne; [eauto|]. intros <-.
    assert (Hin : fresh_node (nodes s) ∈ dom (nodes s)) by (apply elem_of_dom; eauto).
    exact (is_fresh (dom (nodes s)) Hin).
Qed.

Lemma pending_live_empty (s : State) : sourcesRef s = ∅ → pending_live s.
Proof. intros Hs id. rewrite Hs. set_solver. Qed.

Lemma pending_live_handle (e : Event) (s : State) :
  pending_live s → pending_live (handle s e).
Proof.
  intros Hs.
  assert (Hconnect : ∀ microphone, pending_live (connect microphone s))
    by (intros []; exact Hs).
  destruct e as [microphone| |message currentTime|inputData|source| | |]; cbn [handle].
  - apply Hconnect.
  - exact Hs.
  - unfold onmessage, handle_interruption.
    destruct (is_interrupted message); [by apply pending_live_empty|].
    by apply pending_live_handle_audio.
  - exact Hs.
  - intros id. cbn. rewrite elem_of_difference. intros [Hid _]. by apply Hs.
  - by apply pending_live_empty.
  - by apply pending_live_empty.
  - destruct (isConnected s); [by apply pending_live_empty | apply Hconnect].
Qed.

Lemma on_time_handle_audio (message : LiveServerMessage) (currentTime : Q) (s : State) :
  on_time s → on_time (handle_audio message currentTime s).
Proof.
  intros [Hp Hc]. unfold handle_audio.
  destruct (Gemini.or_null _), (outputAudioContextRef s), (outputNodeRef s); try done.
  split; cbn.
  - apply Forall_app. split; [done|]. constructor; [|constructor]. cbn. apply Q.le_max_r.
  - eapply Qle_trans; [exact Hc|]. eapply Qle_trans; [apply Q.le_max_l|].
    apply Qle_plus_nonneg, duration_nonneg.
Qed.

Lemma on_time_handle (e : Event) (s : State) : on_time s → on_time (handle s e).
Proof.
  intros Hs. pose proof Hs as [Hp Hc].
  assert (Hclean : on_time (cleanup s)) by (split; [exact Hp | apply Qle_refl]).
  assert (Hconnect : ∀ microphone, on_time (connect microphone s))
    by (intros []; (split; [exact Hp | exact Hc])).
  destruct e as [microphone| |message currentTime|inputData|source| | |]; cbn [handle].
  - apply Hconnect.
  - split; [exact Hp | exact Hc].
  - unfold onmessage, handle_interruption.
    pose proof (on_time_handle_audio message currentTime s Hs) as [Hp' Hc'].
    destruct (is_interrupted message); split; try done; apply Qle_refl.
  - split; [exact Hp | exact Hc].
  - split; [exact Hp | exact Hc].
  - exact Hclean.
  - split; [exact Hp | apply Qle_refl].
  - destruct (isConnected s); [exact Hclean | apply Hconnect].
Qed.

End Reachable.

(** X16.  In every state the component reaches from its mount, by any
    sequence of events, each source in the pending-playback set is a node
    that was created and started and has not been stopped: [stop] is only
    ever called together with the emptying of the set. *)
Theorem pending_sources_are_live `{Externals} (events : list Event) :
  pending_live (run events initial).
Proof.
  assert (Hall : ∀ s, pending_live s → pending_live (run events s)).
  { induction events as [|e events IH]; intros s Hs; [done|].
    cbn. by apply IH, pending_live_handle. }
  apply Hall, pending_live_empty. reflexivity.
Qed.

(** X17.  In every state the component reaches from its mount, no call of
    [source.start] was given a start time earlier than the context time at
    which it was made, and the next-start-time cursor is not negative. *)
Theorem playback_never_in_the_past `{Externals} (events : list Event) :
  on_time (run events initial).
Proof.
  assert (Hall : ∀ s, on_time s → on_time (run events s)).
  { induction events as [|e events IH]; intros s Hs; [done|].
    cbn. by apply IH, on_time_handle. }
  apply Hall. split; [constructor|]. cbn. apply Qle_refl.
Qed.

(** *** After an interruption *)

Lemma onmessage_chunk `{Externals} (ctx : AudioContext) (message : LiveServerMessage)
    (currentTime : Q) (s : State) :
  outputAudioContextRef s = Some ctx → is_Some (outputNodeRef s) → is_chunk message →
  playlist (onmessage message currentTime s) =
    playlist s ++ [mkScheduled currentTime (Qmax (nextStartTimeRef s) currentTime)
                     (duration (chunk_buffer ctx message))] ∧
  nextStartTimeRef (onmessage message currentTime s) =
    Qmax (nextStartTimeRef s) currentTime + duration (chunk_buffer ctx message).
Proof.
  intros Hctx [g Hg] [[audio Ha] Hi].
  rewrite onmessage_quiet by done. unfold handle_audio, chunk_buffer.
  rewrite Ha, Hctx, Hg. cbn.
  assert (Hb : base64Audio message = Some audio).
  { unfold Gemini.or_null in Ha. destruct (base64Audio message) as [a|]; [|done].
    destruct (App.truthy a); by inversion Ha. }
  by rewrite Hb.
Qed.

(** X18.  After a message with the interrupted signal, the next audio chunk
    is scheduled at the context time it arrives at, not after the audio that
    was cancelled: its start time equals its arrival time, and the cursor
    moves to that time plus the duration of the chunk. *)
Theorem playback_restarts_after_interruption `{Externals} (ctx : AudioContext)
    (interruption message : LiveServerMessage) (t0 t : Q) (s : State) :
  outputAudioContextRef s = Some ctx → is_Some (outputNodeRef s) →
  is_interrupted interruption = true → is_chunk message → 0 <= t →
  let s1 := onmessage interruption t0 s in
  let d := duration (chunk_buffer ctx message) in
  ∃ e, playlist (onmessage message t s1) = playlist s1 ++ [e] ∧
       arrival e = t ∧ when e == t ∧ length_of e = d ∧
       nextStartTimeRef (onmessage message t s1) == t + d.
Proof.
  intros Hctx Hnode Hi Hchunk Ht s1 d. subst s1 d.
  assert (Hready : ready (onmessage interruption t0 s)).
  { apply (ready_handle (Message interruption t0)). split; [by eexists | done]. }
  assert (Hctx1 : outputAudioContextRef (onmessage interruption t0 s) = Some ctx).
  { unfold onmessage, handle_interruption, handle_audio. rewrite Hi.
    destruct Hnode as [g Hg].
    destruct (Gemini.or_null _); cbn; rewrite ?Hctx, ?Hg; done. }
  assert (Hcur : nextStartTimeRef (onmessage interruption t0 s) = 0).
  { unfold onmessage, handle_interruption. by rewrite Hi. }
  destruct (onmessage_chunk ctx message t _ Hctx1 (proj2 Hready) Hchunk) as [Hp Hn].
  rewrite Hcur in *. eexists. split; [exact Hp|]. cbn.
  split; [done|]. split; [by apply Q.max_r|]. split; [done|].
  rewrite Hn. by rewrite Q.max_r.
Qed.

Lemma playback_restarts_after_interruption_witness :
  let s := run [Connect true; Open; Message (audio_message "abcdefgh" false) (1 # 2)] initial in
  let interruption := audio_message "" true in
  let message := audio_message "abcd" false in
  outputAudioContextRef s = Some (mkAudioContext 24000) ∧ is_Some (outputNodeRef s) ∧
  is_interrupted interruption = true ∧ is_chunk message ∧ 0 <= 2 ∧
  ∃ e, playlist (onmessage message 2 (onmessage interruption 1 s))
       = playlist (onmessage interruption 1 s) ++ [e] ∧ when e == 2.
Proof.
  intros s interruption message.
  assert (H1 : outputAudioContextRef s = Some (mkAudioContext 24000)) by reflexivity.
  assert (H2 : is_Some (outputNodeRef s)) by (eexists; reflexivity).
  assert (H3 : is_interrupted interruption = true) by reflexivity.
  assert (H4 : is_chunk message) by (split; [eexists; reflexivity | reflexivity]).
  assert (H5 : 0 <= 2) by (unfold Qle; cbn; lia).
  split; [exact H1|]. split; [exact H2|]. split; [exact H3|]. split; [exact H4|].
  split; [exact H5|].
  destruct (playback_restarts_after_interruption (mkAudioContext 24000)
              interruption message 1 2 s H1 H2 H3 H4 H5) as (e & Hp & _ & Hw & _).
  exists e. split; [exact Hp | exact Hw].
Defined.

End LivePracticeFacts.

(** ** The search view of [components/WordSearch.tsx] *)
Module WordSearchFacts.
Import Types WordSearch Samples.

(** *** The picture handed to the analysis *)

Lemma split_comma_no_comma (s : string) : has_comma s = false → split_comma s = [s].
Proof.
  induction s as [|c s IH]; cbn; [done|].
  destruct (Ascii.eqb c ","); [done|]. cbn. intros Hs. by rewrite IH.
Qed.

Lemma split_comma_prefix (prefix rest : string) :
  has_comma prefix = false →
  split_comma (prefix ++ String "," rest) = prefix :: split_comma rest.
Proof.
  induction prefix as [|c prefix IH]; [done|].
  change (String c prefix ++ String "," rest) with (String c (prefix ++ String "," rest)).
  cbn [has_comma split_comma].
  destruct (Ascii.eqb c ","); [done|]. cbn [orb]. intros Hp. by rewrite IH.
Qed.

(** X19.  [base64String.split(',')[1]] is the text between the first and
    the second comma: of a data URL, a prefix without comma, a comma and a
    payload without comma, it is the payload, and what follows a further
    comma is dropped; of a text without comma it is [undefined]. *)
Theorem base64Data_payload (prefix payload : string) :
  has_comma prefix = false → has_comma payload = false →
  base64Data (prefix ++ String "," payload) = Some payload ∧
  (∀ more, base64Data (prefix ++ String "," (payload ++ String "," more)) = Some payload) ∧
  base64Data prefix = None.
Proof.
  intros Hp Hl. unfold base64Data. split; [|split].
  - by rewrite split_comma_prefix, split_comma_no_comma.
  - intros more. by rewrite !split_comma_prefix.
  - by rewrite split_comma_no_comma.
Qed.

Lemma base64Data_payload_witness :
  has_comma "data:image/jpeg;base64" = false ∧ has_comma "AAECAw==" = false ∧
  base64Data "data:image/jpeg;base64,AAECAw==" = Some "AAECAw==".
Proof.
  assert (Hp : has_comma "data:image/jpeg;base64" = false) by reflexivity.
  assert (Hl : has_comma "AAECAw==" = false) by reflexivity.
  split; [exact Hp|]. split; [exact Hl|].
  exact (proj1 (base64Data_payload "data:image/jpeg;base64" "AAECAw==" Hp Hl)).
Defined.

(** *** The save button *)

(** X20.  A press on save with no result on screen leaves the word list as
    it is.  With a result it puts one new word in front: under [id] and
    [addedAt] the identifier and the time of the save, under [imageUrl] the
    generated image when there is a non-empty one and else what the result
    has there, and under every other name what the result has. *)
Theorem handleSave_saves (uuid : string) (now : Z) (result : option JSObject)
    (generatedImage : option string) (prev : list JSObject) :
  match result with
  | None => handleSave (App.handleSaveWord uuid now) None generatedImage prev = prev
  | Some r =>
    ∃ newWord,
      handleSave (App.handleSaveWord uuid now) (Some r) generatedImage prev = newWord :: prev ∧
      newWord !! "id" = Some (VStr uuid) ∧
      newWord !! "addedAt" = Some (VNum now) ∧
      newWord !! "imageUrl" =
        match Gemini.or_null generatedImage with
        | Some image => Some (VStr image)
        | None => r !! "imageUrl"
        end ∧
      ∀ k, k ≠ "id" → k ≠ "addedAt" → k ≠ "imageUrl" → newWord !! k = r !! k
  end.
Proof.
  destruct result as [r|]; [|done]. unfold handleSave, App.handleSaveWord.
  eexists. split; [reflexivity|].
  split; [by rewrite lookup_insert_ne, lookup_insert_eq|].
  split; [by rewrite lookup_insert_eq|]. split.
  - rewrite !lookup_insert_ne by done. unfold Gemini.or_null.
    destruct generatedImage as [image|]; [|done].
    destruct (App.truthy image); [by rewrite lookup_insert_eq | done].
  - intros k H1 H2 H3. rewrite !lookup_insert_ne by done.
    destruct generatedImage as [image|]; [|done].
    destruct (App.truthy image); [by rewrite lookup_insert_ne | done].
Qed.

End WordSearchFacts.

(** ** The image button of [components/VocabularyList.tsx] *)
Module VocabularyListFacts.
Import Types Gemini VocabularyList Samples.

Section Runs.
Context `{Remote}.

Lemma run_bind {A B} (p : Prog A) (k : A → Prog B) :
  ∀ w, run (bind p k) w =
       match run p w with
       | (Returned a, cs, w1) =>
         let '(out, cs', w2) := run (k a) w1 in (out, (cs ++ cs')%list, w2)
       | (Threw e, cs, w1) => (Threw e, cs, w1)
       | (Unfinished, cs, w1) => (Unfinished, cs, w1)
       end.
Proof.
  induction p as [a|e|X r k' IH|ms p IH|]; intros w; cbn [bind run].
  - by destruct (run (k a) w) as [[out cs'] w2].
  - done.
  - destruct (respond r w) as [res w1]. rewrite IH.
    destruct (run (k' res) w1) as [[[a|e|] cs] w2]; try done.
    by destruct (run (k a) w2) as [[out cs'] w3].
  - apply IH.
  - done.
Qed.

Lemma first_image_truthy (ps : list Part) (url : string) :
  first_image ps = Some url → or_null (Some url) = Some url.
Proof.
  induction ps as [|p ps IH]; cbn; [done|].
  destruct (inlineData p); [|done]. by intros [= <-].
Qed.

Lemma handleGenerateImage_run `{Builtins} (p : WordProps) (w : World) :
  run (handleGenerateImage p) w =
  let request := image_request (word p) (definitionEn p) in
  match GoogleGenAI API_KEY with
  | Some e => (Returned (mkDone None (Some "生成图片失败，请重试。") false), [], w)
  | None =>
    (Returned
       match fst (respond request w) with
       | Rejected e => mkDone None (Some "生成图片失败，请重试。") false
       | Resolved response =>
         match first_image (default [] (first_candidate_parts response)) with
         | Some url =>
           mkDone (Some (App.UpdateWord (id p) {["imageUrl" := VStr url]})) None false
         | None => mkDone None None false
         end
       end,
     [MkCall request], snd (respond request w))
  end.
Proof.
  unfold handleGenerateImage, generateWordImage, getAI.
  destruct (GoogleGenAI API_KEY) as [e|]; [done|].
  cbn [try_catch await bind run].
  destruct (respond (image_request (word p) (definitionEn p)) w) as [[response|e] w1];
    cbn; [|done].
  destruct (first_image _) as [url|] eqn:Hu; [|done].
  by rewrite (first_image_truthy _ _ Hu).
Qed.

End Runs.

(** X21.  [handleGenerateImage] always settles without throwing, with the
    loading flag cleared.  When the client of the service cannot be built
    it makes no request, leaves the list unchanged and shows an alert.
    Otherwise it makes the one image request for the word and its English
    definition: when an image came back, the list changes at the word of
    that [id] only, which gets the image under [imageUrl] and keeps its
    other fields; when none came back the list is unchanged; when the
    request failed the list is unchanged and an alert is shown. *)
Theorem handleGenerateImage_updates `{Remote} `{Builtins} (p : WordProps) (w : World)
    (savedWords : list JSObject) (i : nat) (item : JSObject) :
  NoDup (App.ids savedWords) → savedWords !! i = Some item → props_of item = Some p →
  ∃ d, outcome (handleGenerateImage p) w = Returned d ∧ imgLoading d = false ∧
    match GoogleGenAI API_KEY with
    | Some e =>
      calls (handleGenerateImage p) w = [] ∧
      after d savedWords = savedWords ∧ is_Some (alert d)
    | None =>
      calls (handleGenerateImage p) w = [MkCall (image_request (word p) (definitionEn p))] ∧
      match fst (respond (image_request (word p) (definitionEn p)) w) with
      | Rejected e => after d savedWords = savedWords ∧ is_Some (alert d)
      | Resolved response =>
        alert d = None ∧
        match first_image (default [] (first_candidate_parts response)) with
        | Some url => after d savedWords = <[i := <["imageUrl" := VStr url]> item]> savedWords
        | None => after d savedWords = savedWords
        end
      end
    end.
Proof.
  intros Hnd Hi Hp. unfold calls, outcome. rewrite handleGenerateImage_run. cbn zeta.
  destruct (GoogleGenAI API_KEY) as [e|].
  { eexists. split; [reflexivity|]. split; [done|]. split; [done|]. by split; [|eexists]. }
  cbn [fst snd]. eexists. split; [reflexivity|].
  destruct (fst (respond _ w)) as [response|e]; [|by repeat split; eexists].
  destruct (first_image _) as [url|]; cbn; [|done]. repeat split.
  unfold after. cbn.
  assert (Hid : item !! "id" = Some (VStr (id p))).
  { unfold props_of, string_field in Hp.
    destruct (item !! "id") as [[s|]|]; try done. cbn in Hp.
    destruct (item !! "word") as [[?|]|]; try done. cbn in Hp.
    destruct (item !! "definitionEn") as [[?|]|]; try done. cbn in Hp.
    destruct (item !! "exampleSentence") as [[?|]|]; try done. cbn in Hp.
    by injection Hp as <-. }
  rewrite (AppFacts.handleUpdateWord_at _ _ _ i item Hnd Hi Hid).
  unfold spread2. by rewrite insert_union_singleton_l.
Qed.

Lemma handleGenerateImage_updates_witness :
  let other := <["addedAt" := VNum 9]> (<["id" := VStr "u-2"]> apple) in
  let item := <["addedAt" := VNum 5]> (<["id" := VStr "u-1"]> apple) in
  let p := mkWordProps "u-1" "apple" "a round fruit" "She ate an apple." in
  let url := "data:image/png;base64,iVBORw0KGgo=" in
  NoDup (App.ids [other; item]) ∧ [other; item] !! 1%nat = Some item ∧
  props_of item = Some p ∧
  ∃ d, @outcome scripted _ (handleGenerateImage p) image_script = Returned d ∧
       @calls scripted _ (handleGenerateImage p) image_script =
         [MkCall (image_request "apple" "a round fruit")] ∧
       after d [other; item] = [other; <["imageUrl" := VStr url]> item].
Proof.
  intros other item p url.
  assert (H1 : NoDup (App.ids [other; item])).
  { apply NoDup_cons. split; [|apply NoDup_singleton].
    cbn. subst other item. rewrite !lookup_insert_ne, !lookup_insert_eq by done.
    rewrite elem_of_cons, elem_of_nil. intros [[=]|[]]. }
  assert (H2 : [other; item] !! 1%nat = Some item) by reflexivity.
  assert (H3 : props_of item = Some p) by reflexivity.
  split; [exact H1|]. split; [exact H2|]. split; [exact H3|].
  destruct (@handleGenerateImage_updates scripted flat_builtins p image_script
              [other; item] 1%nat item H1 H2 H3) as (d & Hout & _ & Hcalls & _ & Hafter).
  exists d. split; [exact Hout|]. split; [exact Hcalls|]. exact Hafter.
Defined.

End VocabularyListFacts.
